(** * The proof-of-stake kernel of DeepOnion: [src/pos.cpp]

    A shallow embedding of the stake-modifier engine, the kernel-hash
    checker, the coinstake validator and the modifier checksum chain,
    followed by the properties established about them.

    Conventions.
    - C++ fixed-width integers are values of [Z]; every place where the
      source computes in [unsigned int], [uint64_t] or [arith_uint256]
      has its wrap-around written out ([u32], [u64], [u256]).
    - [uint256] is the 32-byte blob of [uint256.h]; [arith_uint256] is
      the number those bytes denote, least-significant byte first.
    - A [CBlockIndex*] is an [option CBlockIndex]; the entry carries its
      [pprev] and [pnext] links, so a walk along either link is a
      structural recursion and a null link ends it.
    - Functions that log through [error], touch the [CValidationState]
      or read the adjusted clock run in the monad [M]; a dereference of
      a null pointer or an out-of-range [operator[]] is the outcome
      [Crash].
    - What [pos.cpp] uses but does not define (the hash function, the
      compact-target decoder, the flag accessors of [CBlockIndex], the
      disk and database readers, [std::sort]) is gathered in the class
      [Collaborators]. *)

From Stdlib Require Import ZArith List Lia String Bool.
From Stdlib Require Import Sorting.Permutation Sorting.Sorted.
From Stdlib Require Import Strings.Byte.
From stdpp Require Import gmap list.

Open Scope Z_scope.

(** ** Bytes, fixed-width integers and the stream serialization *)

#[global] Instance byte_eq_dec : EqDecision byte := Byte.byte_eq_dec.
#[global] Instance byte_countable : Countable byte :=
  inj_countable Byte.to_N Byte.of_N Byte.of_to_N.

Module Wire.

Definition u32 (z : Z) : Z := z mod 2 ^ 32.
Definition u64 (z : Z) : Z := z mod 2 ^ 64.

(** The low eight bits of [z] as a byte (two's complement for a
    negative [z]). *)
Definition byte_of_Z (z : Z) : byte :=
  Byte.of_bits
    (Z.testbit z 0, (Z.testbit z 1, (Z.testbit z 2, (Z.testbit z 3,
    (Z.testbit z 4, (Z.testbit z 5, (Z.testbit z 6, Z.testbit z 7))))))).

Definition Z_of_byte (b : byte) : Z := Z.of_N (Byte.to_N b).

(** [n] bytes of [z], least significant first: what [operator<<] of a
    [CDataStream] writes for an integer of [n] bytes. *)
Fixpoint le_bytes (n : nat) (z : Z) : list byte :=
  match n with
  | O => []
  | S k => byte_of_Z z :: le_bytes k (Z.shiftr z 8)
  end.

Definition le32 : Z -> list byte := le_bytes 4.
Definition le64 : Z -> list byte := le_bytes 8.

(** The number a run of bytes denotes, least significant first. *)
Fixpoint le_value (bs : list byte) : Z :=
  match bs with
  | [] => 0
  | b :: r => Z_of_byte b + 256 * le_value r
  end.

End Wire.
Export Wire.

(** [uint256]: an opaque blob of 32 bytes. *)
Definition uint256 : Type := list byte.

(** A [uint256] is written to a stream as its 32 bytes. *)
Definition ser_uint256 (h : uint256) : list byte :=
  take 32 (h ++ replicate 32 x00).

Module Arith256.

(** [arith_uint256] values are the integers of [[0, 2^256)]. *)
Definition u256 (z : Z) : Z := z mod 2 ^ 256.

(** [UintToArith256]: the eight 32-bit words are read with [ReadLE32],
    word [i] from bytes [4i .. 4i+3]. *)
Definition UintToArith256 (h : uint256) : Z := le_value (ser_uint256 h).

(** [ArithToUint256]: the inverse layout, [WriteLE32] word by word. *)
Definition ArithToUint256 (a : Z) : uint256 := le_bytes 32 a.

Definition mul (a b : Z) : Z := u256 (a * b).
Definition div (a b : Z) : Z := a / b.
(** [operator>>=] *)
Definition shr (a : Z) (k : Z) : Z := Z.shiftr a k.
(** [Get64]: the two low 32-bit words. *)
Definition Get64 (a : Z) : Z := a mod 2 ^ 64.

End Arith256.
Export Arith256.

(** ** Chain data *)

(** The fields of [CBlockIndex] that [pos.cpp] reads. *)
#[warnings="-register-all"]
Inductive CBlockIndex : Type := mkBlockIndex {
  pprev : option CBlockIndex;
  pnext : option CBlockIndex;
  phashBlock : uint256;
  nHeight : Z;                      (* int *)
  nTime : Z;                        (* unsigned int *)
  nFlags : Z;                       (* unsigned int *)
  nStakeModifier : Z;               (* uint64_t *)
  nStakeModifierChecksum : Z;       (* unsigned int *)
  hashProofOfStake : uint256 }.

Definition GetBlockTime (p : CBlockIndex) : Z := nTime p.   (* (int64_t)nTime *)
Definition GetBlockHash (p : CBlockIndex) : uint256 := phashBlock p.

Record COutPoint := mkOutPoint { hash : uint256; n : Z (* uint32_t *) }.
Record CTxIn := mkTxIn { prevout : COutPoint }.
Record CTxOut := mkTxOut { nValue : Z (* int64_t *) }.
Record CTransaction := mkTransaction {
  tx_nTime : Z;                     (* unsigned int *)
  vin : list CTxIn;
  vout : list CTxOut }.
Record CBlock := mkBlock { nBits : Z (* unsigned int *); vtx : list CTransaction }.
Record CDiskTxPos := mkDiskTxPos { nFile : Z; nPos : Z; nTxOffset : Z (* unsigned int *) }.
Record Coin := mkCoin { coin_nHeight : Z (* uint32_t *); coin_out : CTxOut }.

(** The 80 serialized bytes of a block header. *)
Definition CBlockHeader : Type := list byte.

(** What a block file yields at a transaction position: the header at
    the start of the block and the transaction [nTxOffset] bytes after
    it. *)
Record DiskRecord := mkDiskRecord { headerPrev : CBlockHeader; txPrev0 : CTransaction }.

(** ** Collaborators of [pos.cpp] *)

Class Collaborators := {
  (** [Hash(begin, end)] of [hash.h]. *)
  Hash : list byte -> uint256;
  (** [arith_uint256::SetCompact], the expansion of [nBits]. *)
  SetCompact : Z -> Z;
  (** The value [operator*] of [arith_uint256] takes for an [int64_t]
      right operand; the overload is fixed by [arith_uint256.h]. *)
  operand_of_int64 : Z -> Z;
  (** Flag accessors of [CBlockIndex] ([chain.h]). *)
  GeneratedStakeModifier : CBlockIndex -> bool;
  GetStakeEntropyBit : CBlockIndex -> Z;
  IsProofOfStake : CBlockIndex -> bool;
  (** [CBlockIndex::GetAncestor] ([chain.cpp]). *)
  GetAncestor : CBlockIndex -> Z -> option CBlockIndex;
  (** [CTransaction::IsCoinStake]. *)
  IsCoinStake : CTransaction -> bool;
  (** [CBlockHeader::GetHash]. *)
  GetHash : CBlockHeader -> uint256;
  (** [OpenBlockFile] and the reads that follow it: [None] when the
      file does not open, [Some None] when a read throws. *)
  OpenBlockFile : CDiskTxPos -> option (option DiskRecord);
  COINBASE_MATURITY : Z;
  (** [std::sort] with the comparator [a.first < b.first]. *)
  std_sort : list (Z * uint256) -> list (Z * uint256)
}.

(** ** Constants and file-level state *)

Definition nStakeMinAge : Z := 60 * 60 * 24 * 1.
Definition nStakeMaxAge : Z := 60 * 60 * 24 * 30.
Definition nModifierInterval : Z := 8 * 60.

(** Modelled from the spec: [MODIFIER_INTERVAL_RATIO] and [COIN] are
    declared in headers outside [src/]; section 4.1 of the
    specification gives their values. *)
Definition MODIFIER_INTERVAL_RATIO : Z := 3.
Definition COIN : Z := 100000000.

(** The two [static std::map<int, unsigned int>] tables. *)
Record Statics := mkStatics {
  mapStakeModifierCheckpoints : gmap Z Z;
  mapStakeModifierCheckpointsTestNet : gmap Z Z }.

Definition checkpoints_mainnet : list (Z * Z) :=
  [ (     0, 0xfd11f4e7);
    (  1000, 0x353653fe);
    ( 10000, 0x8c341084);
    ( 50008, 0x9f0053f2);
    (100000, 0xaf212909);
    (150006, 0x3883af95);
    (200830, 0xf2daec0a);
    (250008, 0x76bd1777);
    (300836, 0x18dbac5e);
    (350003, 0x17223fa8);
    (400002, 0xd1662b8f);
    (450000, 0x0fc0c8d3);
    (500001, 0x17ac1811);
    (550004, 0xcfb3340f);
    (600014, 0x74d7cf8c);
    (621306, 0x4890a081) ].

Definition checkpoints_testnet : list (Z * Z) := [ (0, 0xfd11f4e7) ].

Definition statics_init : Statics :=
  {| mapStakeModifierCheckpoints := list_to_map checkpoints_mainnet;
     mapStakeModifierCheckpointsTestNet := list_to_map checkpoints_testnet |}.

(** ** Validation state, log, clock: the monad [M] *)

(** Modelled from the spec: [CValidationState] is declared outside
    [src/]; a consensus reject (section 7) marks the state invalid and
    adds the DoS score. *)
Record CValidationState := mkValidationState { invalid : bool; nDoS : Z }.

Record World := mkWorld {
  state : CValidationState;         (* the [CValidationState&] threaded through *)
  errlog : list string;             (* lines written by [error] *)
  adjusted_time : Z }.              (* what [GetAdjustedTime] returns *)

Inductive outcome (A : Type) : Type :=
| Done (a : A) (w : World)
| Crash (why : string).
Arguments Done {A} a w.
Arguments Crash {A} why.

Definition M (A : Type) : Type := World -> outcome A.

Definition ret {A} (a : A) : M A := fun w => Done a w.
Definition bind {A B} (m : M A) (k : A -> M B) : M B :=
  fun w => match m w with
           | Done a w' => k a w'
           | Crash why => Crash why
           end.
Definition crash {A} (why : string) : M A := fun _ => Crash why.

Declare Scope pos_scope.
Delimit Scope pos_scope with pos.
Notation "x <- m ;; k" := (bind m (fun x => k))
  (at level 100, m at next level, right associativity) : pos_scope.
Open Scope pos_scope.

(** [error(...)]: log the line, answer [false]. *)
Definition error (msg : string) : M bool :=
  fun w => Done false {| state := state w; errlog := errlog w ++ [msg];
                         adjusted_time := adjusted_time w |}.

(** [state.DoS(level, ret)] *)
Definition DoS (level : Z) (r : bool) : M bool :=
  fun w => Done r {| state := {| invalid := true; nDoS := nDoS (state w) + level |};
                     errlog := errlog w; adjusted_time := adjusted_time w |}.

Definition GetAdjustedTime : M Z := fun w => Done (adjusted_time w) w.

(** Dereference of a pointer. *)
Definition deref {A} (p : option A) : M A :=
  match p with
  | Some a => ret a
  | None => crash "null pointer dereference"
  end.

(** ** The functions of [pos.cpp] *)

Section Pos.
Context `{Collaborators}.

(** [GetWeight]: the subtraction is carried out in [int64_t]; its
    arguments are widened 32-bit times, so it does not overflow. *)
Definition GetWeight (nIntervalBeginning nIntervalEnd : Z) : Z :=
  Z.min (nIntervalEnd - nIntervalBeginning - nStakeMinAge) nStakeMaxAge.

(** The loop of [GetLastStakeModifier]:
    [while (pindex && pindex->pprev && !pindex->GeneratedStakeModifier())]. *)
Fixpoint last_modifier_block (pindex : CBlockIndex) {struct pindex} : CBlockIndex :=
  match pprev pindex with
  | Some p => if negb (GeneratedStakeModifier pindex) then last_modifier_block p else pindex
  | None => pindex
  end.

(** [GetLastStakeModifier]: [Some (nStakeModifier, nModifierTime)] when
    it returns true; on failure the two references are left alone. *)
Definition GetLastStakeModifier (pindex : option CBlockIndex) : M (option (Z * Z)) :=
  match pindex with
  | None => _ <- error "GetLastStakeModifier: null pindex" ;; ret None
  | Some pindex =>
      let pindex := last_modifier_block pindex in
      if negb (GeneratedStakeModifier pindex)
      then _ <- error "GetLastStakeModifier: no generation at genesis block" ;; ret None
      else ret (Some (nStakeModifier pindex, GetBlockTime pindex))
  end.

(** [GetStakeModifierSelectionIntervalSection]: the quotient is taken
    in [unsigned int]; the assertion [0 <= nSection < 64] holds at
    both call sites. *)
Definition GetStakeModifierSelectionIntervalSection (nSection : Z) : Z :=
  u32 (nModifierInterval * 63)
  / u32 (63 + ((63 - nSection) * (MODIFIER_INTERVAL_RATIO - 1))).

Fixpoint selection_interval_from (nSection : Z) (count : nat) (nSelectionInterval : Z) : Z :=
  match count with
  | O => nSelectionInterval
  | S k => selection_interval_from (nSection + 1) k
             (nSelectionInterval + GetStakeModifierSelectionIntervalSection nSection)
  end.

(** [GetStakeModifierSelectionInterval]: [for (nSection = 0; nSection < 64; nSection++)]. *)
Definition GetStakeModifierSelectionInterval : Z :=
  selection_interval_from 0 64 0.

(** The [for] loop of [SelectBlockFromCandidates] with its three
    locals [fSelected], [hashBest] and [*pindexSelected]. *)
Fixpoint select_loop (mapBlockIndex mapSelectedBlocks : gmap uint256 CBlockIndex)
    (nSelectionIntervalStop nStakeModifierPrev : Z)
    (items : list (Z * uint256))
    (fSelected : bool) (hashBest : Z) (pindexSelected : option CBlockIndex)
    {struct items} : M (bool * option CBlockIndex) :=
  match items with
  | [] => ret (fSelected, pindexSelected)
  | item :: rest =>
      match mapBlockIndex !! item.2 with
      | None =>
          r <- error "SelectBlockFromCandidates: failed to find block index for candidate block" ;;
          ret (r, pindexSelected)
      | Some pindex =>
          if fSelected && (nSelectionIntervalStop <? GetBlockTime pindex)
          then ret (fSelected, pindexSelected)                       (* break *)
          else if bool_decide (is_Some (mapSelectedBlocks !! GetBlockHash pindex))
          then select_loop mapBlockIndex mapSelectedBlocks nSelectionIntervalStop
                 nStakeModifierPrev rest fSelected hashBest pindexSelected  (* continue *)
          else
            let hashProof :=
              if IsProofOfStake pindex then hashProofOfStake pindex else GetBlockHash pindex in
            let ss := ser_uint256 hashProof ++ le64 nStakeModifierPrev in
            let hashSelection := UintToArith256 (Hash ss) in
            let hashSelection :=
              if IsProofOfStake pindex then shr hashSelection 32 else hashSelection in
            if fSelected && (hashSelection <? hashBest)
            then select_loop mapBlockIndex mapSelectedBlocks nSelectionIntervalStop
                   nStakeModifierPrev rest fSelected hashSelection (Some pindex)
            else if negb fSelected
            then select_loop mapBlockIndex mapSelectedBlocks nSelectionIntervalStop
                   nStakeModifierPrev rest true hashSelection (Some pindex)
            else select_loop mapBlockIndex mapSelectedBlocks nSelectionIntervalStop
                   nStakeModifierPrev rest fSelected hashBest pindexSelected
      end
  end.

(** [SelectBlockFromCandidates]: the result and [*pindexSelected]. *)
Definition SelectBlockFromCandidates
    (mapBlockIndex : gmap uint256 CBlockIndex)
    (vSortedByTimestamp : list (Z * uint256))
    (mapSelectedBlocks : gmap uint256 CBlockIndex)
    (nSelectionIntervalStop nStakeModifierPrev : Z) : M (bool * option CBlockIndex) :=
  select_loop mapBlockIndex mapSelectedBlocks nSelectionIntervalStop nStakeModifierPrev
    vSortedByTimestamp false 0 None.

(** The candidate walk of [ComputeNextStakeModifier]:
    [while (pindex && pindex->GetBlockTime() >= nSelectionIntervalStart)]. *)
Fixpoint collect_candidates (nSelectionIntervalStart : Z) (pindex : CBlockIndex)
    {struct pindex} : list (Z * uint256) :=
  if nSelectionIntervalStart <=? GetBlockTime pindex
  then (GetBlockTime pindex, GetBlockHash pindex)
       :: match pprev pindex with
          | Some p => collect_candidates nSelectionIntervalStart p
          | None => []
          end
  else [].

(** [std::map::insert]: an existing key keeps its value. *)
Definition map_insert (k : uint256) (v : CBlockIndex)
    (m : gmap uint256 CBlockIndex) : gmap uint256 CBlockIndex :=
  match m !! k with
  | Some _ => m
  | None => <[k := v]> m
  end.

(** The selection rounds of [ComputeNextStakeModifier]; [count] is the
    number of rounds still to run, [None] the failure of a round. *)
Fixpoint selection_rounds (mapBlockIndex : gmap uint256 CBlockIndex)
    (vSortedByTimestamp : list (Z * uint256)) (nStakeModifier : Z)
    (count : nat) (nRound : Z) (nSelectionIntervalStop : Z)
    (mapSelectedBlocks : gmap uint256 CBlockIndex) (nStakeModifierNew : Z)
    {struct count} : M (option Z) :=
  match count with
  | O => ret (Some nStakeModifierNew)
  | S k =>
      let nSelectionIntervalStop :=
        nSelectionIntervalStop + GetStakeModifierSelectionIntervalSection nRound in
      r <- SelectBlockFromCandidates mapBlockIndex vSortedByTimestamp mapSelectedBlocks
             nSelectionIntervalStop nStakeModifier ;;
      if negb r.1
      then _ <- error "ComputeNextStakeModifier: unable to select block at round" ;; ret None
      else
        pindex <- deref r.2 ;;
        let nStakeModifierNew :=
          Z.lor nStakeModifierNew (u64 (Z.shiftl (u64 (GetStakeEntropyBit pindex)) nRound)) in
        let mapSelectedBlocks := map_insert (GetBlockHash pindex) pindex mapSelectedBlocks in
        selection_rounds mapBlockIndex vSortedByTimestamp nStakeModifier
          k (nRound + 1) nSelectionIntervalStop mapSelectedBlocks nStakeModifierNew
  end.

(** Everything of [ComputeNextStakeModifier] after the candidates have
    been put in order. *)
Definition select_from_sorted (mapBlockIndex : gmap uint256 CBlockIndex)
    (vSortedByTimestamp : list (Z * uint256))
    (nStakeModifier nSelectionIntervalStart : Z) : M (bool * Z * bool) :=
  r <- selection_rounds mapBlockIndex vSortedByTimestamp nStakeModifier
         (Z.to_nat (Z.min 64 (Z.of_nat (length vSortedByTimestamp)))) 0
         nSelectionIntervalStart ∅ 0 ;;
  match r with
  | None => ret (false, nStakeModifier, false)
  | Some nStakeModifierNew => ret (true, nStakeModifierNew, true)
  end.

Definition selection_interval_start (pindexPrev : CBlockIndex) : Z :=
  (GetBlockTime pindexPrev ÷ nModifierInterval) * nModifierInterval
  - GetStakeModifierSelectionInterval.

(** [ComputeNextStakeModifier]: the result, [nStakeModifier] and
    [fGeneratedStakeModifier]. [mapBlockIndex] is the global block map
    that [SelectBlockFromCandidates] reads. *)
Definition ComputeNextStakeModifier (mapBlockIndex : gmap uint256 CBlockIndex)
    (pindexPrev : option CBlockIndex) : M (bool * Z * bool) :=
  match pindexPrev with
  | None => ret (true, 0, true)          (* genesis block's modifier is 0 *)
  | Some prev =>
      r <- GetLastStakeModifier pindexPrev ;;
      match r with
      | None =>
          r <- error "ComputeNextStakeModifier: unable to get last modifier" ;;
          ret (r, 0, false)
      | Some (nStakeModifier, nModifierTime) =>
          if GetBlockTime prev ÷ nModifierInterval <=? nModifierTime ÷ nModifierInterval
          then ret (true, nStakeModifier, false)
          else
            let nSelectionIntervalStart := selection_interval_start prev in
            let vSortedByTimestamp := collect_candidates nSelectionIntervalStart prev in
            let vSortedByTimestamp := rev vSortedByTimestamp in
            let vSortedByTimestamp := std_sort vSortedByTimestamp in
            select_from_sorted mapBlockIndex vSortedByTimestamp
              nStakeModifier nSelectionIntervalStart
      end
  end.

(** The [while] loop of [GetKernelStakeModifier]; [limit] is
    [pindexFrom->nTime + nStakeModifierSelectionInterval]. The result
    carries [nStakeModifier], [nStakeModifierHeight] and
    [nStakeModifierTime] as they stand on return. *)
Fixpoint kernel_modifier_loop (limit nStakeModifierSelectionInterval : Z)
    (pindex : CBlockIndex) (nStakeModifierHeight nStakeModifierTime : Z)
    {struct pindex} : M (bool * (Z * Z * Z)) :=
  if nStakeModifierTime <? limit then
    match pnext pindex with
    | None =>
        (* reached best block; may happen if node is behind on block chain *)
        now <- GetAdjustedTime ;;
        if now <? GetBlockTime pindex + nStakeMinAge - nStakeModifierSelectionInterval
        then r <- error "GetKernelStakeModifier() : reached best block" ;;
             ret (r, (0, nStakeModifierHeight, nStakeModifierTime))
        else ret (false, (0, nStakeModifierHeight, nStakeModifierTime))
    | Some next =>
        if GeneratedStakeModifier next
        then kernel_modifier_loop limit nStakeModifierSelectionInterval next
               (nHeight next) (nTime next)
        else kernel_modifier_loop limit nStakeModifierSelectionInterval next
               nStakeModifierHeight nStakeModifierTime
    end
  else ret (true, (nStakeModifier pindex, nStakeModifierHeight, nStakeModifierTime)).

Definition GetKernelStakeModifier (pindexFrom : CBlockIndex) : M (bool * (Z * Z * Z)) :=
  let nStakeModifierSelectionInterval := GetStakeModifierSelectionInterval in
  kernel_modifier_loop (nTime pindexFrom + nStakeModifierSelectionInterval)
    nStakeModifierSelectionInterval pindexFrom (nHeight pindexFrom) (nTime pindexFrom).

(** [operator[]] of a [std::vector]; out of range it is undefined
    behaviour. *)
Definition vector_at {A} (v : list A) (i : Z) : M A :=
  match v !! Z.to_nat i with
  | Some a => ret a
  | None => crash "vector index out of range"
  end.

(** The stream that [CheckStakeKernelHash] hashes. *)
Definition kernel_stream (nStakeModifier nTimeBlockFrom nTxPrevOffset nTimeTxPrev
    nPrevout nTimeTx : Z) : list byte :=
  let ss := [] in
  let ss := ss ++ le64 nStakeModifier in
  ss ++ le32 nTimeBlockFrom ++ le32 nTxPrevOffset ++ le32 nTimeTxPrev
     ++ le32 nPrevout ++ le32 nTimeTx.

(** [bnCoinDayWeight] of [CheckStakeKernelHash]. *)
Definition coin_day_weight (nValuePrev nTimeTxPrev nTimeTx : Z) : Z :=
  div (div (mul (u64 nValuePrev) (operand_of_int64 (GetWeight nTimeTxPrev nTimeTx))) COIN)
      (24 * 60 * 60).

(** [CheckStakeKernelHash]: the result, [hashProofOfStake] and
    [targetProofOfStake]; the last two arguments are what the two
    references hold on entry. *)
Definition CheckStakeKernelHash (nBits : Z) (pBlockFrom : option CBlockIndex)
    (txPrevRef : CTransaction) (nTxPrevOffset : Z) (prevout : COutPoint) (nTimeTx : Z)
    (hashProofOfStake targetProofOfStake : uint256) : M (bool * uint256 * uint256) :=
  if nTimeTx <? tx_nTime txPrevRef          (* Transaction timestamp violation *)
  then r <- error "CheckStakeKernelHash() : nTime violation" ;;
       r <- DoS 100 r ;;
       ret (r, hashProofOfStake, targetProofOfStake)
  else
    blockFrom <- deref pBlockFrom ;;
    let nTimeBlockFrom := nTime blockFrom in
    if nTimeTx <? u32 (nTimeBlockFrom + nStakeMinAge)      (* Min age requirement *)
    then r <- error "CheckStakeKernelHash() : min age violation" ;;
         r <- DoS 100 r ;;
         ret (r, hashProofOfStake, targetProofOfStake)
    else
      let bnTargetPerCoinDay := SetCompact nBits in
      out <- vector_at (vout txPrevRef) (n prevout) ;;
      let nValuePrev := nValue out in
      let bnCoinDayWeight := coin_day_weight nValuePrev (tx_nTime txPrevRef) nTimeTx in
      let targetProofOfStake := ArithToUint256 (mul bnCoinDayWeight bnTargetPerCoinDay) in
      r <- GetKernelStakeModifier blockFrom ;;
      if negb r.1
      then ret (false, hashProofOfStake, targetProofOfStake)
      else
        let nStakeModifier := r.2.1.1 in
        let ss := kernel_stream nStakeModifier nTimeBlockFrom nTxPrevOffset
                    (tx_nTime txPrevRef) (n prevout) nTimeTx in
        let hashProofOfStake := Hash ss in
        (* Now check if proof-of-stake hash meets target protocol *)
        if mul bnCoinDayWeight bnTargetPerCoinDay <? UintToArith256 hashProofOfStake
        then ret (false, hashProofOfStake, targetProofOfStake)
        else ret (true, hashProofOfStake, targetProofOfStake).

(** [state.DoS(100, error(msg))] followed by [return]. *)
Definition reject {A} (msg : string) (k : bool -> A) : M A :=
  r <- error msg ;; r <- DoS 100 r ;; ret (k r).

(** [CheckProofOfStake]: the result, [hashProofOfStake] and
    [targetProofOfStake]. [blockTreeDB] answers [ReadTxIndex], [view]
    answers [GetCoin]. Modelled from the spec: [Coin] is declared
    outside [src/]; section 4.4.3 states the maturity test as the
    plain inequality [prev.height + 1 - coin.height >=
    COINBASE_MATURITY], the signed comparison of the source. *)
Definition CheckProofOfStake (blockTreeDB : gmap uint256 CDiskTxPos)
    (pindexPrev : option CBlockIndex) (block : CBlock)
    (hashProofOfStake targetProofOfStake : uint256)
    (mapBlockIndex : gmap uint256 CBlockIndex)
    (view : gmap (uint256 * Z) Coin) : M (bool * uint256 * uint256) :=
  let out (r : bool) := (r, hashProofOfStake, targetProofOfStake) in
  tx <- vector_at (vtx block) 1 ;;
  let nBits := nBits block in
  if negb (IsCoinStake tx)
  then reject "CheckProofOfStake() : called on non-coinstake" out
  else
    (* Kernel (input 0) must match the stake hash target per coin age (nBits) *)
    txin <- vector_at (vin tx) 0 ;;
    match blockTreeDB !! hash (prevout txin) with
    | None => reject ">> CheckProofOfStake() : blockTreeDB.ReadTxIndex failed." out
    | Some txindex =>
        let nTxPrevOffset := u32 (nTxOffset txindex + 80) in   (* nTxOffset counts after header *)
        match OpenBlockFile txindex with
        | None => reject "CheckProofOfStake() : OpenBlockFile failed" out
        | Some None =>
            reject "CheckProofOfStake() : Deserialize or I/O error, can't get prev tx" out
        | Some (Some rec) =>
            let txPrevRef := txPrev0 rec in
            let hashPrev := GetHash (headerPrev rec) in
            let pBlockFrom := mapBlockIndex !! hashPrev in   (* nullptr when not found *)
            match view !! (hash (prevout txin), n (prevout txin)) with
            | None => reject "CheckProofOfStake() : Stake prevout does not exist" out
            | Some coinPrev =>
                prev <- deref pindexPrev ;;
                if nHeight prev + 1 - coin_nHeight coinPrev <? COINBASE_MATURITY
                then reject "CheckProofOfStake() : Stake prevout is not mature" out
                else
                  match GetAncestor prev (coin_nHeight coinPrev) with
                  | None =>
                      reject "CheckProofOfStake() : Block for prevout can not be loaded" out
                  | Some blockFrom =>
                      r <- CheckStakeKernelHash nBits pBlockFrom txPrevRef nTxPrevOffset
                             (prevout txin) (tx_nTime tx)
                             hashProofOfStake targetProofOfStake ;;
                      if negb r.1.1
                      then reject "CheckProofOfStake() : INFO: check kernel failed on coinstake"
                             (fun b => (b, r.1.2, r.2))
                      else ret (true, r.1.2, r.2)
                  end
            end
        end
    end.

(** [CheckCoinStakeTimestamp] (v0.3 protocol). *)
Definition CheckCoinStakeTimestamp (nTimeBlock nTimeTx : Z) : bool :=
  nTimeBlock =? nTimeTx.

(** The stream that [GetStakeModifierChecksum] hashes. *)
Definition checksum_stream (pindex : CBlockIndex) : list byte :=
  let ss := [] in
  let ss := match pprev pindex with
            | Some prev => ss ++ le32 (nStakeModifierChecksum prev)
            | None => ss
            end in
  ss ++ le32 (nFlags pindex) ++ ser_uint256 (hashProofOfStake pindex)
     ++ le64 (nStakeModifier pindex).

(** [GetStakeModifierChecksum]: [Get64] is narrowed to the
    [unsigned int] result. *)
Definition GetStakeModifierChecksum (pindex : CBlockIndex) : Z :=
  let hashChecksum := Hash (checksum_stream pindex) in
  let hashChecksum0 := UintToArith256 hashChecksum in
  let hashChecksum0 := shr hashChecksum0 (256 - 32) in
  u32 (Get64 hashChecksum0).

(** [CheckStakeModifierCheckpoints]: [count] then [operator[]] on the
    mainnet table. *)
Definition CheckStakeModifierCheckpoints (g : Statics) (nHeight : Z)
    (nStakeModifierChecksum : Z) : bool :=
  let checkpoints := mapStakeModifierCheckpoints g in
  if bool_decide (is_Some (checkpoints !! nHeight))
  then nStakeModifierChecksum =? default 0 (checkpoints !! nHeight)
  else true.

End Pos.

(** ** Views of the chain used to state results *)

(** The world after [error(msg)]. *)
Definition logged (msg : string) (w : World) : World :=
  {| state := state w; errlog := errlog w ++ [msg]; adjusted_time := adjusted_time w |}.

(** The world after [state.DoS(100, error(msg))]. *)
Definition rejected (msg : string) (w : World) : World :=
  {| state := {| invalid := true; nDoS := nDoS (state w) + 100 |};
     errlog := errlog w ++ [msg];
     adjusted_time := adjusted_time w |}.

(** A run from [w] that ends normally with one more line in the error
    log. *)
Definition reports_error {A} (o : outcome A) (w : World) : Prop :=
  exists a msg, o = Done a (logged msg w).

(** The number [SelectBlockFromCandidates] compares for a candidate:
    the hash of its proof hash and the previous modifier, divided by
    2^32 for a proof-of-stake block. *)
Definition raw_selection_hash `{Collaborators} (nStakeModifierPrev : Z) (p : CBlockIndex) : Z :=
  UintToArith256
    (Hash (ser_uint256 (if IsProofOfStake p then hashProofOfStake p else GetBlockHash p)
           ++ le64 nStakeModifierPrev)).

Definition selection_hash `{Collaborators} (nStakeModifierPrev : Z) (p : CBlockIndex) : Z :=
  if IsProofOfStake p
  then raw_selection_hash nStakeModifierPrev p / 2 ^ 32
  else raw_selection_hash nStakeModifierPrev p.

(** The blocks after [p] along [pnext], nearest first. *)
Fixpoint successors (p : CBlockIndex) {struct p} : list CBlockIndex :=
  match pnext p with
  | Some q => q :: successors q
  | None => []
  end.

(** The block at which a walk along [pnext] from [p] finds a null link. *)
Fixpoint chain_tip (p : CBlockIndex) {struct p} : CBlockIndex :=
  match pnext p with
  | Some q => chain_tip q
  | None => p
  end.

(** [p] and the blocks before it along [pprev], nearest first. *)
Fixpoint ancestors (p : CBlockIndex) {struct p} : list CBlockIndex :=
  p :: match pprev p with
       | Some q => ancestors q
       | None => []
       end.

(** The candidate has an entry in the block index. *)
Definition indexed (mapBlockIndex : gmap uint256 CBlockIndex) (item : Z * uint256) : Prop :=
  is_Some (mapBlockIndex !! item.2).

(** The candidate's block is not later than the stop of the round. *)
Definition within_stop (mapBlockIndex : gmap uint256 CBlockIndex)
    (nSelectionIntervalStop : Z) (item : Z * uint256) : Prop :=
  forall q, mapBlockIndex !! item.2 = Some q -> GetBlockTime q <= nSelectionIntervalStop.

(** The candidate is indexed and its block is not among the blocks
    already selected. *)
Definition unselected (mapBlockIndex mapSelectedBlocks : gmap uint256 CBlockIndex)
    (item : Z * uint256) : Prop :=
  exists p, mapBlockIndex !! item.2 = Some p /\ mapSelectedBlocks !! GetBlockHash p = None.

(** The pair that [ComputeNextStakeModifier] pushes for a block. *)
Definition candidate_of (b : CBlockIndex) : Z * uint256 := (GetBlockTime b, GetBlockHash b).

(** Order of the comparator [a.first < b.first]: [a] may stand before
    [b] in a sorted range. *)
Definition time_le (a b : Z * uint256) : Prop := a.1 <= b.1.

(** A sort that keeps candidates with equal timestamps in their order of
    arrival: insertion, one element at a time, in front of the first
    element that is not earlier. *)
Fixpoint insert_by_time (x : Z * uint256) (l : list (Z * uint256)) : list (Z * uint256) :=
  match l with
  | [] => [x]
  | y :: r => if x.1 <=? y.1 then x :: y :: r else y :: insert_by_time x r
  end.

Fixpoint stable_sort_by_time (l : list (Z * uint256)) : list (Z * uint256) :=
  match l with
  | [] => []
  | x :: r => insert_by_time x (stable_sort_by_time r)
  end.

(** [ComputeNextStakeModifier] as section 4.3.2 of the specification
    reads when its note is applied: the candidates are put in order by
    a stable sort of the list as collected (newest first), with no
    reversal. Everything else is the source's. *)
Definition ComputeNextStakeModifier_stable_sort `{Collaborators}
    (mapBlockIndex : gmap uint256 CBlockIndex)
    (pindexPrev : option CBlockIndex) : M (bool * Z * bool) :=
  match pindexPrev with
  | None => ret (true, 0, true)
  | Some prev =>
      r <- GetLastStakeModifier pindexPrev ;;
      match r with
      | None =>
          r <- error "ComputeNextStakeModifier: unable to get last modifier" ;;
          ret (r, 0, false)
      | Some (nStakeModifier, nModifierTime) =>
          if GetBlockTime prev ÷ nModifierInterval <=? nModifierTime ÷ nModifierInterval
          then ret (true, nStakeModifier, false)
          else
            let nSelectionIntervalStart := selection_interval_start prev in
            let vSortedByTimestamp :=
              stable_sort_by_time (collect_candidates nSelectionIntervalStart prev) in
            select_from_sorted mapBlockIndex vSortedByTimestamp
              nStakeModifier nSelectionIntervalStart
      end
  end.

(** ** A concrete node

    An instantiation of the collaborators on which the functions above
    can be run: the flag layout of the Peercoin lineage, the Bitcoin
    expansion of [nBits], a 32-bit weight operand, a toy hash that pads
    or cuts its input to 32 bytes, and, for [std::sort], the insertion
    sort that the library runs on ranges of at most sixteen elements. *)
Module Sample.

Definition set_compact (nCompact : Z) : Z :=
  let nSize := Z.shiftr nCompact 24 in
  let nWord := Z.land nCompact 0x007fffff in
  if nSize <=? 3
  then Z.shiftr nWord (8 * (3 - nSize))
  else u256 (Z.shiftl nWord (8 * (nSize - 3))).

Fixpoint get_ancestor (p : CBlockIndex) (height : Z) {struct p} : option CBlockIndex :=
  if nHeight p =? height then Some p
  else match pprev p with
       | Some q => get_ancestor q height
       | None => None
       end.

Definition disk_tx : CTransaction :=
  {| tx_nTime := 1000000; vin := []; vout := [ {| nValue := 0 |}; {| nValue := 5000 * COIN |} ] |}.

Definition disk (pos : CDiskTxPos) : option (option DiskRecord) :=
  if nFile pos =? 0
  then Some (Some {| headerPrev := le_bytes 80 (nPos pos); txPrev0 := disk_tx |})
  else if nFile pos =? 1 then Some None else None.

#[export] Instance node : Collaborators := {|
  Hash := ser_uint256;
  SetCompact := set_compact;
  operand_of_int64 := u32;
  GeneratedStakeModifier p := Z.testbit (nFlags p) 2;
  GetStakeEntropyBit p := Z.shiftr (Z.land (nFlags p) 2) 1;
  IsProofOfStake p := Z.testbit (nFlags p) 0;
  GetAncestor := get_ancestor;
  IsCoinStake tx := bool_decide (vin tx <> []) && (2 <=? Z.of_nat (length (vout tx)));
  GetHash := ser_uint256;
  OpenBlockFile := disk;
  COINBASE_MATURITY := 40;
  std_sort := stable_sort_by_time
|}.

Definition world0 (now : Z) : World :=
  {| state := {| invalid := false; nDoS := 0 |}; errlog := []; adjusted_time := now |}.

Definition block_hash (k : Z) : uint256 := le_bytes 32 k.

(** A block with no links. *)
Definition blk (height time flags modifier : Z) : CBlockIndex :=
  {| pprev := None; pnext := None; phashBlock := block_hash (height + 2 ^ 40);
     nHeight := height; nTime := time; nFlags := flags;
     nStakeModifier := modifier; nStakeModifierChecksum := 0;
     hashProofOfStake := block_hash 0 |}.

Definition with_prev (q : CBlockIndex) (p : CBlockIndex) : CBlockIndex :=
  {| pprev := Some q; pnext := pnext p; phashBlock := phashBlock p;
     nHeight := nHeight p; nTime := nTime p; nFlags := nFlags p;
     nStakeModifier := nStakeModifier p;
     nStakeModifierChecksum := nStakeModifierChecksum p;
     hashProofOfStake := hashProofOfStake p |}.

Definition with_next (q : CBlockIndex) (p : CBlockIndex) : CBlockIndex :=
  {| pprev := pprev p; pnext := Some q; phashBlock := phashBlock p;
     nHeight := nHeight p; nTime := nTime p; nFlags := nFlags p;
     nStakeModifier := nStakeModifier p;
     nStakeModifierChecksum := nStakeModifierChecksum p;
     hashProofOfStake := hashProofOfStake p |}.

(** *** Kernel check: the min-age scenario and a kernel that is met *)

Definition stake_outpoint : COutPoint := {| hash := block_hash 777; n := 1 |}.

(** Scenario 3 of the specification: previous transaction and its
    block at time 1000000, spend one second short of the minimum age. *)
Definition young_from : CBlockIndex := blk 7 1000000 0 0.
Definition young_time_tx : Z := 1000000 + nStakeMinAge - 1.

(** A block in the last day that a 32-bit timestamp can express, and
    a coin of that block spent 100 seconds later. *)
Definition late_from : CBlockIndex :=
  with_next (blk 40 4294916900 4 0xabcdef) (blk 7 4294900000 0 0).
Definition late_tx : CTransaction :=
  {| tx_nTime := 4294900000; vin := []; vout := [ {| nValue := 0 |}; {| nValue := 5000 * COIN |} ] |}.
Definition late_time_tx : Z := 4294900100.

(** A coin of a block at time 1000000, eleven days old when spent; a
    modifier was generated one selection interval after its block. *)
Definition ripe_modifier_block : CBlockIndex := blk 40 1016900 4 0xabcdef.
Definition ripe_from : CBlockIndex := with_next ripe_modifier_block (blk 10 1000000 0 0).
Definition ripe_time_tx : Z := 1000000 + 11 * nStakeMinAge.
Definition easy_bits : Z := 0x1e0fffff.

(** *** Kernel modifier: a tip 10000 seconds after the coin's block *)

Definition behind_tip : CBlockIndex := blk 11 1500010000 1 0.
Definition behind_from : CBlockIndex := with_next behind_tip (blk 10 1500000000 1 0).
Definition behind_now : Z := 1500075000.

(** A chain on which a block later than [block_from.time + S] carries
    no generated modifier: the walk passes it and stops one block
    further. *)
Definition far_modifier_block : CBlockIndex := blk 13 1500017000 4 0x2222.
Definition unflagged_block : CBlockIndex :=
  with_next far_modifier_block (blk 12 1500016905 0 0).
Definition near_modifier_block : CBlockIndex :=
  with_next unflagged_block (blk 11 1500000010 4 0x1111).
Definition passing_from : CBlockIndex :=
  with_next near_modifier_block (blk 10 1500000000 0 0).

(** *** Two blocks of one modifier interval *)

Definition bucket_modifier_block : CBlockIndex := blk 0 960 4 0x1234.
Definition bucket_prev : CBlockIndex := with_prev bucket_modifier_block (blk 1 1000 0 0).

(** *** Coinstake validation with a header that is not in the index *)

Fixpoint linear_chain (k : nat) : CBlockIndex :=
  match k with
  | O => blk 0 1000000 4 0
  | S j => with_prev (linear_chain j) (blk (Z.of_nat k) (1000000 + 240 * Z.of_nat k) 0 0)
  end.

Definition orphan_prev : CBlockIndex := linear_chain 50.
Definition orphan_index : gmap uint256 CBlockIndex :=
  list_to_map ((fun b => (phashBlock b, b)) <$> ancestors orphan_prev).
Definition orphan_txdb : gmap uint256 CDiskTxPos :=
  {[ hash stake_outpoint := {| nFile := 0; nPos := 1234; nTxOffset := 81 |} ]}.
Definition orphan_view : gmap (uint256 * Z) Coin :=
  {[ (hash stake_outpoint, n stake_outpoint)
       := {| coin_nHeight := 5; coin_out := {| nValue := 5000 * COIN |} |} ]}.
Definition coinbase : CTransaction :=
  {| tx_nTime := 1950400; vin := []; vout := [ {| nValue := 0 |} ] |}.
Definition coinstake : CTransaction :=
  {| tx_nTime := 1950400; vin := [ {| prevout := stake_outpoint |} ];
     vout := [ {| nValue := 0 |}; {| nValue := 5001 * COIN |} ] |}.
Definition orphan_block : CBlock := {| nBits := easy_bits; vtx := [coinbase; coinstake] |}.

(** *** Candidates of a modifier computation *)

Definition genesis : CBlockIndex := blk 0 0 4 0.

(** Two candidates with one timestamp; the older one carries the
    entropy bit. *)
Definition tie_older : CBlockIndex := with_prev genesis (blk 1 100000 2 0).
Definition tie_newer : CBlockIndex := with_prev tie_older (blk 2 100000 0 0).
Definition tie_index : gmap uint256 CBlockIndex :=
  list_to_map ((fun b => (phashBlock b, b)) <$> ancestors tie_newer).

(** The same chain with the newer block eight minutes later. *)
Definition apart_newer : CBlockIndex := with_prev tie_older (blk 2 100480 0 0).
Definition apart_index : gmap uint256 CBlockIndex :=
  list_to_map ((fun b => (phashBlock b, b)) <$> ancestors apart_newer).

(** *** A proof-of-stake and a proof-of-work candidate with one raw hash *)

Definition pow_candidate : CBlockIndex := blk 3 5000 0 0.
Definition pos_candidate : CBlockIndex :=
  {| pprev := None; pnext := None; phashBlock := block_hash (4 + 2 ^ 40);
     nHeight := 4; nTime := 5060; nFlags := 1;
     nStakeModifier := 0; nStakeModifierChecksum := 0;
     hashProofOfStake := phashBlock pow_candidate |}.
Definition duel_index : gmap uint256 CBlockIndex :=
  list_to_map [ (phashBlock pow_candidate, pow_candidate);
                (phashBlock pos_candidate, pos_candidate) ].

(** *** Further scenarios *)

(** The block of the previous transaction with no block after it. *)
Definition lonely_from : CBlockIndex := blk 10 1000000 0 0.

(** A block only 50400 seconds older than the coinstake. *)
Definition fresh_from : CBlockIndex := blk 10 1900000 0 0.

(** An index that holds one block under the hash of the header that
    [disk] yields for [orphan_txdb]. *)
Definition found_index (blockFrom : CBlockIndex) : gmap uint256 CBlockIndex :=
  {[ block_hash 1234 := blockFrom ]}.

(** Two blocks, neither with a generated modifier. *)
Definition bare_prev : CBlockIndex := with_prev (blk 0 0 0 0) (blk 1 1000 0 0).

Definition pow_item : Z * uint256 := (5000, phashBlock pow_candidate).
Definition pos_item : Z * uint256 := (5060, phashBlock pos_candidate).
Definition unknown_item : Z * uint256 := (5030, block_hash 999).

End Sample.

(** * Properties *)

(** ** Integers and bytes *)

Lemma u32_small (z : Z) : 0 <= z < 2 ^ 32 -> u32 z = z.
Proof. intros Hz. unfold u32. now apply Z.mod_small. Qed.

Lemma u32_range (z : Z) : 0 <= u32 z < 2 ^ 32.
Proof. unfold u32. apply Z.mod_pos_bound. lia. Qed.

Lemma Z_of_byte_range (b : byte) : 0 <= Z_of_byte b < 256.
Proof.
  unfold Z_of_byte. pose proof (Byte.to_N_bounded b) as Hb.
  lia.
Qed.

Lemma le_value_range (bs : list byte) : 0 <= le_value bs < 256 ^ Z.of_nat (length bs).
Proof.
  induction bs as [|b r IH]; simpl le_value; simpl length.
  - simpl. lia.
  - rewrite Nat2Z.inj_succ, Z.pow_succ_r by lia.
    pose proof (Z_of_byte_range b). lia.
Qed.

Lemma le_value_app (a b : list byte) :
  le_value (a ++ b) = le_value a + 256 ^ Z.of_nat (length a) * le_value b.
Proof.
  induction a as [|x a IH]; simpl le_value; simpl length.
  - simpl. lia.
  - rewrite IH, Nat2Z.inj_succ, Z.pow_succ_r by lia. ring.
Qed.

Lemma length_le_bytes (k : nat) (z : Z) : length (le_bytes k z) = k.
Proof. revert z. induction k as [|k IH]; intros z; simpl; [reflexivity | now rewrite IH]. Qed.

Lemma length_ser_uint256 (h : uint256) : length (ser_uint256 h) = 32%nat.
Proof.
  unfold ser_uint256. rewrite length_take, length_app, length_replicate. lia.
Qed.

Lemma UintToArith256_range (h : uint256) : 0 <= UintToArith256 h < 2 ^ 256.
Proof.
  unfold UintToArith256. pose proof (le_value_range (ser_uint256 h)) as Hr.
  rewrite length_ser_uint256 in Hr. exact Hr.
Qed.

(** The top 32 bits of an [arith_uint256] are its last four bytes. *)
Lemma UintToArith256_high_word (h : uint256) :
  UintToArith256 h / 2 ^ 224 = le_value (drop 28 (ser_uint256 h)).
Proof.
  unfold UintToArith256.
  rewrite <- (take_drop 28 (ser_uint256 h)) at 1.
  rewrite le_value_app.
  assert (Hlen : length (take 28 (ser_uint256 h)) = 28%nat)
    by (rewrite length_take, length_ser_uint256; lia).
  pose proof (le_value_range (take 28 (ser_uint256 h))) as Hlow.
  rewrite Hlen in *.
  change (256 ^ Z.of_nat 28) with (2 ^ 224) in *.
  rewrite Z.mul_comm, Z.div_add by lia.
  rewrite Z.div_small by lia. lia.
Qed.

Lemma selection_interval_value : GetStakeModifierSelectionInterval = 16900.
Proof. reflexivity. Qed.

(** ** Induction along the links of the block index *)

Lemma pprev_ind (P : CBlockIndex -> Prop) :
  (forall p, (forall q, pprev p = Some q -> P q) -> P p) -> forall p, P p.
Proof.
  intros Hstep.
  fix IH 1. intros p. apply Hstep.
  destruct p as [[q|] nx hb ht tm fl sm ck hp]; simpl; intros q' Hq; [|discriminate].
  injection Hq as <-. apply IH.
Qed.

Lemma pnext_ind (P : CBlockIndex -> Prop) :
  (forall p, (forall q, pnext p = Some q -> P q) -> P p) -> forall p, P p.
Proof.
  intros Hstep.
  fix IH 1. intros p. apply Hstep.
  destruct p as [pv [q|] hb ht tm fl sm ck hp]; simpl; intros q' Hq; [|discriminate].
  injection Hq as <-. apply IH.
Qed.

Lemma ancestors_unfold (p : CBlockIndex) :
  ancestors p = p :: match pprev p with Some q => ancestors q | None => [] end.
Proof. destruct p; reflexivity. Qed.

Lemma successors_unfold (p : CBlockIndex) :
  successors p = match pnext p with Some q => q :: successors q | None => [] end.
Proof. destruct p; reflexivity. Qed.

Lemma chain_tip_unfold (p : CBlockIndex) :
  chain_tip p = match pnext p with Some q => chain_tip q | None => p end.
Proof. destruct p; reflexivity. Qed.

Section Properties.
Context `{Collaborators}.

Lemma last_modifier_block_unfold (p : CBlockIndex) :
  last_modifier_block p =
  match pprev p with
  | Some q => if negb (GeneratedStakeModifier p) then last_modifier_block q else p
  | None => p
  end.
Proof. destruct p; reflexivity. Qed.

Lemma kernel_modifier_loop_unfold limit S p h t :
  kernel_modifier_loop limit S p h t =
  if t <? limit then
    match pnext p with
    | None =>
        now <- GetAdjustedTime ;;
        if now <? GetBlockTime p + nStakeMinAge - S
        then r <- error "GetKernelStakeModifier() : reached best block" ;;
             ret (r, (0, h, t))
        else ret (false, (0, h, t))
    | Some next =>
        if GeneratedStakeModifier next
        then kernel_modifier_loop limit S next (nHeight next) (nTime next)
        else kernel_modifier_loop limit S next h t
    end
  else ret (true, (nStakeModifier p, h, t)).
Proof. destruct p; reflexivity. Qed.

Lemma collect_candidates_unfold start p :
  collect_candidates start p =
  if start <=? GetBlockTime p
  then (GetBlockTime p, GetBlockHash p)
       :: match pprev p with
          | Some q => collect_candidates start q
          | None => []
          end
  else [].
Proof. destruct p; reflexivity. Qed.

(** ** The coinstake timestamp rule *)

(** C10. [CheckCoinStakeTimestamp nTimeBlock nTimeTx] answers true
    exactly when the two timestamps are the same number: there is no
    tolerance window around the block time. *)
Theorem CheckCoinStakeTimestamp_exact (nTimeBlock nTimeTx : Z) :
  CheckCoinStakeTimestamp nTimeBlock nTimeTx = true <-> nTimeBlock = nTimeTx.
Proof. unfold CheckCoinStakeTimestamp. apply Z.eqb_eq. Qed.

(** ** The stake-modifier checkpoints *)

Lemma checkpoints_mainnet_keys_NoDup : NoDup (checkpoints_mainnet.*1).
Proof. apply (bool_decide_unpack _). vm_compute. exact I. Qed.

(** C9. On the tables as the file initialises them,
    [CheckStakeModifierCheckpoints] answers true exactly when the
    height has no entry in the mainnet table or the checksum is the
    entry of that height; and whatever the testnet table holds, the
    answer is the same: the function never reads it. *)
Theorem CheckStakeModifierCheckpoints_mainnet_only
    (nHeight nChecksum : Z) (testnet : gmap Z Z) :
  (CheckStakeModifierCheckpoints statics_init nHeight nChecksum = true
   <-> (nHeight ∉ checkpoints_mainnet.*1 \/ (nHeight, nChecksum) ∈ checkpoints_mainnet))
  /\ CheckStakeModifierCheckpoints
       {| mapStakeModifierCheckpoints := mapStakeModifierCheckpoints statics_init;
          mapStakeModifierCheckpointsTestNet := testnet |} nHeight nChecksum
     = CheckStakeModifierCheckpoints statics_init nHeight nChecksum.
Proof.
  split; [|reflexivity].
  unfold CheckStakeModifierCheckpoints, statics_init; cbn [mapStakeModifierCheckpoints].
  pose proof checkpoints_mainnet_keys_NoDup as Hnd.
  destruct (list_to_map checkpoints_mainnet !! nHeight) as [v|] eqn:Hlk.
  - rewrite bool_decide_eq_true_2 by eauto. cbn [default].
    apply (elem_of_list_to_map_2 (M := gmap Z)) in Hlk as Hin.
    rewrite Z.eqb_eq. split.
    + intros ->. now right.
    + intros [Habs | Hin'].
      * exfalso. apply Habs. apply list_elem_of_fmap. exists (nHeight, v). auto.
      * apply (elem_of_list_to_map_1 (M := gmap Z)) in Hin'; [|exact Hnd].
        rewrite Hlk in Hin'. now injection Hin'.
  - rewrite bool_decide_eq_false_2 by (intros [? ?]; discriminate).
    split; [|reflexivity]. intros _. left.
    now apply (not_elem_of_list_to_map (M := gmap Z)).
Qed.

(** ** The checksum chain *)

(** C4. The checksum of an index entry is the most significant 32 bits
    of the 256-bit number [H(prev.checksum || flags ||
    hash_proof_of_stake || stake_modifier)], that is the last four
    bytes of the hash read as one word; the stream holds the
    predecessor's checksum (4 bytes, little-endian) exactly when there
    is a predecessor, then the flags (4 bytes), the proof hash
    (32 bytes) and the modifier (8 bytes). *)
Theorem GetStakeModifierChecksum_high_word (pindex : CBlockIndex) :
  let stream :=
    match pprev pindex with
    | Some prev => le32 (nStakeModifierChecksum prev)
    | None => []
    end ++ le32 (nFlags pindex) ++ ser_uint256 (hashProofOfStake pindex)
        ++ le64 (nStakeModifier pindex) in
  let h := UintToArith256 (Hash stream) in
  GetStakeModifierChecksum pindex = h / 2 ^ 224
  /\ GetStakeModifierChecksum pindex = le_value (drop 28 (ser_uint256 (Hash stream)))
  /\ 0 <= GetStakeModifierChecksum pindex < 2 ^ 32
  /\ (forall i, 0 <= i < 32 ->
        Z.testbit (GetStakeModifierChecksum pindex) i = Z.testbit h (224 + i))
  /\ length stream = match pprev pindex with Some _ => 48%nat | None => 44%nat end.
Proof.
  intros stream h.
  assert (Hstream : checksum_stream pindex = stream).
  { unfold checksum_stream, stream. destruct (pprev pindex); reflexivity. }
  assert (Hval : GetStakeModifierChecksum pindex = h / 2 ^ 224).
  { unfold GetStakeModifierChecksum. rewrite Hstream. fold h.
    unfold u32, Get64, shr. change (256 - 32) with 224.
    rewrite Z.shiftr_div_pow2 by lia.
    pose proof (UintToArith256_range (Hash stream)) as Hr. fold h in Hr.
    assert (0 <= h / 2 ^ 224 < 2 ^ 32) as Hq.
    { split; [apply Z.div_pos; lia|].
      apply Z.div_lt_upper_bound; [lia|].
      change (2 ^ 224 * 2 ^ 32) with (2 ^ 256). lia. }
    rewrite (Z.mod_small (h / 2 ^ 224) (2 ^ 64)) by lia.
    apply Z.mod_small. lia. }
  split; [exact Hval|].
  split; [rewrite Hval; apply UintToArith256_high_word|].
  split.
  { unfold GetStakeModifierChecksum. apply u32_range. }
  split.
  { intros i Hi. rewrite Hval, Z.div_pow2_bits by lia. f_equal. lia. }
  unfold stream, le32, le64.
  destruct (pprev pindex);
    rewrite !length_app, !length_le_bytes, length_ser_uint256; reflexivity.
Qed.

(** ** Interval stability of the stake modifier *)

Lemma last_modifier_block_first_generated (l1 : list CBlockIndex) :
  forall p g l2,
    ancestors p = l1 ++ g :: l2 ->
    Forall (fun b => GeneratedStakeModifier b = false) l1 ->
    GeneratedStakeModifier g = true ->
    last_modifier_block p = g.
Proof.
  induction l1 as [|a l1 IH]; intros p g l2 Hanc Hno Hgen.
  - rewrite ancestors_unfold in Hanc. simpl in Hanc.
    injection Hanc as -> _.
    rewrite last_modifier_block_unfold, Hgen. simpl. now destruct (pprev g).
  - rewrite ancestors_unfold in Hanc. simpl in Hanc.
    injection Hanc as -> Htail.
    apply Forall_cons in Hno as [Ha Hno].
    rewrite last_modifier_block_unfold, Ha. simpl.
    destruct (pprev a) as [q|].
    + now apply (IH q g l2).
    + destruct l1; discriminate.
Qed.

(** C5. Let [g] be the first block with a generated modifier met on
    the walk back from a non-null [prev] ([prev] included). If the
    time of [g] and the time of [prev] fall in the same
    [nModifierInterval] bucket (or [g]'s in a later one) under the
    integer division of the source, [ComputeNextStakeModifier] returns
    the modifier of [g] unchanged with [fGeneratedStakeModifier]
    false, and writes no error line. *)
Theorem ComputeNextStakeModifier_same_interval
    (mapBlockIndex : gmap uint256 CBlockIndex) (prev g : CBlockIndex)
    (l1 l2 : list CBlockIndex) (w : World) :
  ancestors prev = l1 ++ g :: l2 ->
  Forall (fun b => GeneratedStakeModifier b = false) l1 ->
  GeneratedStakeModifier g = true ->
  GetBlockTime g ÷ nModifierInterval >= GetBlockTime prev ÷ nModifierInterval ->
  ComputeNextStakeModifier mapBlockIndex (Some prev) w
  = Done (true, nStakeModifier g, false) w.
Proof.
  intros Hanc Hno Hgen Hbucket.
  pose proof (last_modifier_block_first_generated l1 prev g l2 Hanc Hno Hgen) as Hlast.
  unfold ComputeNextStakeModifier, GetLastStakeModifier, bind, ret.
  rewrite Hlast, Hgen. simpl.
  destruct (Z.leb_spec (GetBlockTime prev ÷ nModifierInterval)
                       (GetBlockTime g ÷ nModifierInterval)) as [_|Hlt];
    [reflexivity | lia].
Qed.

(** ** The kernel-hash checker *)

(** The two time rules as the source computes them:
    [CheckStakeKernelHash] rejects with DoS 100, before any hash is
    computed and with both output references untouched, whenever
    [nTimeTx] is earlier than the time of the previous transaction, or
    the [unsigned int] sum [nTimeBlockFrom + nStakeMinAge] exceeds
    [nTimeTx]; the second rejection is the min-age one. Where the sum
    does not overflow 32 bits this is the rule as the specification
    states it. *)
Lemma CheckStakeKernelHash_rejects
    (nBits : Z) (blockFrom : CBlockIndex) (txPrev : CTransaction)
    (nTxPrevOffset : Z) (prevout : COutPoint) (nTimeTx : Z)
    (hashProof0 targetProof0 : uint256) (w : World) :
  nTimeTx < tx_nTime txPrev
  \/ (nTime blockFrom + nStakeMinAge) mod 2 ^ 32 > nTimeTx ->
  exists msg,
    CheckStakeKernelHash nBits (Some blockFrom) txPrev nTxPrevOffset prevout nTimeTx
      hashProof0 targetProof0 w
    = Done (false, hashProof0, targetProof0) (rejected msg w)
    /\ (tx_nTime txPrev <= nTimeTx ->
        msg = "CheckStakeKernelHash() : min age violation"%string).
Proof.
  intros Hviol. unfold CheckStakeKernelHash.
  destruct (Z.ltb_spec nTimeTx (tx_nTime txPrev)) as [Hlt|Hge].
  - eexists. split; [reflexivity | lia].
  - destruct Hviol as [Hlt|Hage]; [lia|].
    unfold bind, deref, ret. fold (u32 (nTime blockFrom + nStakeMinAge)) in Hage.
    destruct (Z.ltb_spec nTimeTx (u32 (nTime blockFrom + nStakeMinAge))) as [_|Hle]; [|lia].
    eexists. split; reflexivity.
Qed.

(** C1. When both preconditions hold, the output index is in range
    and the kernel modifier [M] is available, [CheckStakeKernelHash]
    stores [hash_proof = H(M || block_from.time || tx_prev_offset ||
    tx_prev.time || prevout.n || time_tx)] and the 256-bit product
    [coin_day_weight * target_per_coin_day], rejects nothing, and
    answers true exactly when the hash, as a 256-bit number, is at
    most that product; a hash equal to the product is accepted. *)
Theorem CheckStakeKernelHash_accepts_iff
    (nBits : Z) (blockFrom : CBlockIndex) (txPrev : CTransaction)
    (nTxPrevOffset : Z) (prevout : COutPoint) (nTimeTx : Z)
    (hashProof0 targetProof0 : uint256) (out : CTxOut)
    (M height time : Z) (w w' : World) :
  0 <= nTime blockFrom -> nTimeTx < 2 ^ 32 ->
  tx_nTime txPrev <= nTimeTx ->
  nTime blockFrom + nStakeMinAge <= nTimeTx ->
  vout txPrev !! Z.to_nat (n prevout) = Some out ->
  GetKernelStakeModifier blockFrom w = Done (true, (M, height, time)) w' ->
  let hash_proof :=
    Hash (le64 M ++ le32 (nTime blockFrom) ++ le32 nTxPrevOffset
            ++ le32 (tx_nTime txPrev) ++ le32 (n prevout) ++ le32 nTimeTx) in
  let target_proof :=
    (coin_day_weight (nValue out) (tx_nTime txPrev) nTimeTx * SetCompact nBits)
      mod 2 ^ 256 in
  exists ok,
    CheckStakeKernelHash nBits (Some blockFrom) txPrev nTxPrevOffset prevout nTimeTx
      hashProof0 targetProof0 w
    = Done (ok, hash_proof, ArithToUint256 target_proof) w'
    /\ (ok = true <-> UintToArith256 hash_proof <= target_proof)
    /\ (UintToArith256 hash_proof = target_proof -> ok = true).
Proof.
  intros Hfrom Htx Hprev Hage Hout Hmod hash_proof target_proof.
  unfold CheckStakeKernelHash.
  destruct (Z.ltb_spec nTimeTx (tx_nTime txPrev)) as [Hlt|_]; [lia|].
  unfold bind at 1. unfold deref, ret at 1.
  rewrite u32_small by (unfold nStakeMinAge in *; lia).
  destruct (Z.ltb_spec nTimeTx (nTime blockFrom + nStakeMinAge)) as [Hlt|_]; [lia|].
  unfold bind at 1. unfold vector_at. rewrite Hout. unfold ret at 1.
  unfold bind at 1. rewrite Hmod. cbn [fst snd negb].
  unfold kernel_stream, mul, u256. cbn [app].
  fold hash_proof. fold target_proof.
  destruct (Z.ltb_spec target_proof (UintToArith256 hash_proof)) as [Hgt|Hle].
  - exists false. split; [reflexivity|]. split; [split; [discriminate|lia] | lia].
  - exists true. split; [reflexivity|]. split; [split; [lia|reflexivity] | reflexivity].
Qed.

(** ** The kernel stake modifier *)

Lemma kernel_modifier_loop_walk (limit S : Z) (p : CBlockIndex) :
  forall h t w,
    t < limit ->
    match find (fun q => GeneratedStakeModifier q && (limit <=? nTime q)) (successors p) with
    | Some q =>
        kernel_modifier_loop limit S p h t w
        = Done (true, (nStakeModifier q, nHeight q, nTime q)) w
    | None =>
        exists h' t',
          kernel_modifier_loop limit S p h t w
          = if adjusted_time w <? GetBlockTime (chain_tip p) + nStakeMinAge - S
            then Done (false, (0, h', t'))
                   (logged "GetKernelStakeModifier() : reached best block" w)
            else Done (false, (0, h', t')) w
    end.
Proof.
  induction p as [p IH] using pnext_ind. intros h t w Ht.
  rewrite kernel_modifier_loop_unfold, successors_unfold, chain_tip_unfold.
  destruct (Z.ltb_spec t limit) as [_|Hge]; [|lia].
  destruct (pnext p) as [nx|] eqn:Hnx; simpl find.
  - specialize (IH nx eq_refl).
    destruct (GeneratedStakeModifier nx) eqn:Hgen; simpl andb.
    + destruct (Z.leb_spec limit (nTime nx)) as [Hreach|Hshort].
      * rewrite kernel_modifier_loop_unfold.
        destruct (Z.ltb_spec (nTime nx) limit) as [Hlt|_]; [lia|]. reflexivity.
      * apply IH. exact Hshort.
    + apply IH. exact Ht.
  - exists h, t. unfold bind, GetAdjustedTime, error, ret, logged.
    now destruct (adjusted_time w <? GetBlockTime p + nStakeMinAge - S).
Qed.

(** C2 (amended). From any [block_from], [GetKernelStakeModifier]
    walks forward along [pnext] to the first block that carries a
    generated stake modifier and whose time is at least
    [block_from.time + S], and returns the modifier, height and time
    of that block, the most recent generated one traversed. When no
    such block lies ahead, the walk ends at the block whose [pnext]
    is null, the call fails, and it logs an error exactly when
    [tip.time + nStakeMinAge - S > now], [tip] being that last block;
    otherwise it fails silently. *)
Theorem GetKernelStakeModifier_walk (pindexFrom : CBlockIndex) (w : World) :
  let S := GetStakeModifierSelectionInterval in
  match find (fun q => GeneratedStakeModifier q && (nTime pindexFrom + S <=? nTime q))
             (successors pindexFrom) with
  | Some q =>
      GetKernelStakeModifier pindexFrom w
      = Done (true, (nStakeModifier q, nHeight q, nTime q)) w
  | None =>
      exists h t,
        GetKernelStakeModifier pindexFrom w
        = if adjusted_time w <? GetBlockTime (chain_tip pindexFrom) + nStakeMinAge - S
          then Done (false, (0, h, t))
                 (logged "GetKernelStakeModifier() : reached best block" w)
          else Done (false, (0, h, t)) w
  end.
Proof.
  intros S. unfold GetKernelStakeModifier. fold S.
  apply kernel_modifier_loop_walk.
  unfold S. rewrite selection_interval_value. lia.
Qed.

(** ** The coinstake validator *)

(** C3. When the transaction index, the block file and the coin are
    all found, the coin is mature, its ancestor block exists and the
    coinstake is not earlier than the previous transaction, but the
    hash of the previous transaction's block header is not in
    [mapBlockIndex], [CheckProofOfStake] hands the null [pBlockFrom]
    to [CheckStakeKernelHash], which dereferences it: the call does
    not return a rejection. *)
Theorem CheckProofOfStake_null_block_from
    (blockTreeDB : gmap uint256 CDiskTxPos) (prev : CBlockIndex) (block : CBlock)
    (hashProof0 targetProof0 : uint256)
    (mapBlockIndex : gmap uint256 CBlockIndex) (view : gmap (uint256 * Z) Coin)
    (tx : CTransaction) (txin : CTxIn) (txindex : CDiskTxPos) (rec : DiskRecord)
    (coinPrev : Coin) (blockAtCoin : CBlockIndex) (w : World) :
  vtx block !! 1%nat = Some tx ->
  IsCoinStake tx = true ->
  vin tx !! 0%nat = Some txin ->
  blockTreeDB !! hash (prevout txin) = Some txindex ->
  OpenBlockFile txindex = Some (Some rec) ->
  mapBlockIndex !! GetHash (headerPrev rec) = None ->
  view !! (hash (prevout txin), n (prevout txin)) = Some coinPrev ->
  COINBASE_MATURITY <= nHeight prev + 1 - coin_nHeight coinPrev ->
  GetAncestor prev (coin_nHeight coinPrev) = Some blockAtCoin ->
  tx_nTime (txPrev0 rec) <= tx_nTime tx ->
  CheckProofOfStake blockTreeDB (Some prev) block hashProof0 targetProof0
    mapBlockIndex view w
  = Crash "null pointer dereference".
Proof.
  intros Htx Hcs Hin Hidx Hfile Hmiss Hcoin Hmature Hanc Htime.
  unfold CheckProofOfStake, vector_at.
  change (Z.to_nat 1) with 1%nat. change (Z.to_nat 0) with 0%nat.
  rewrite Htx. unfold bind at 1. unfold ret at 1.
  rewrite Hcs. cbn [negb].
  rewrite Hin. unfold bind at 1. unfold ret at 1.
  rewrite Hidx, Hfile, Hmiss, Hcoin.
  unfold bind at 1. unfold deref at 1. unfold ret at 1.
  destruct (Z.ltb_spec (nHeight prev + 1 - coin_nHeight coinPrev)
                       COINBASE_MATURITY) as [Hlt|_]; [lia|].
  rewrite Hanc. unfold bind at 1. unfold CheckStakeKernelHash.
  destruct (Z.ltb_spec (tx_nTime tx) (tx_nTime (txPrev0 rec))) as [Hlt|_]; [lia|].
  reflexivity.
Qed.

(** ** Ordering of the candidates *)

Lemma insert_by_time_Permutation (x : Z * uint256) (l : list (Z * uint256)) :
  insert_by_time x l ≡ₚ x :: l.
Proof.
  induction l as [|y r IH]; simpl; [reflexivity|].
  destruct (x.1 <=? y.1); [reflexivity|].
  rewrite IH. apply perm_swap.
Qed.

Lemma stable_sort_by_time_Permutation (l : list (Z * uint256)) :
  stable_sort_by_time l ≡ₚ l.
Proof.
  induction l as [|x r IH]; simpl; [reflexivity|].
  now rewrite insert_by_time_Permutation, IH.
Qed.

Lemma insert_by_time_sorted (x : Z * uint256) (l : list (Z * uint256)) :
  StronglySorted time_le l -> StronglySorted time_le (insert_by_time x l).
Proof.
  induction l as [|y r IH]; simpl; intros Hs.
  - repeat constructor.
  - apply StronglySorted_inv in Hs as [Hr Hy].
    destruct (Z.leb_spec x.1 y.1) as [Hle|Hgt].
    + constructor; [now constructor|].
      constructor; [exact Hle|].
      eapply Forall_impl; [exact Hy|]. unfold time_le. intros z Hz. lia.
    + constructor; [now apply IH|].
      rewrite insert_by_time_Permutation.
      constructor; [unfold time_le; lia | exact Hy].
Qed.

Lemma stable_sort_by_time_sorted (l : list (Z * uint256)) :
  StronglySorted time_le (stable_sort_by_time l).
Proof.
  induction l as [|x r IH]; simpl; [constructor|].
  now apply insert_by_time_sorted.
Qed.

(** Stability: candidates with one timestamp keep their order. *)
Lemma stable_sort_by_time_keeps_ties (k : Z) (l : list (Z * uint256)) :
  filter (fun x => x.1 = k) (stable_sort_by_time l) = filter (fun x => x.1 = k) l.
Proof.
  induction l as [|x r IH]; simpl; [reflexivity|].
  rewrite filter_cons, <- IH. clear IH.
  induction (stable_sort_by_time r) as [|y s IHs]; simpl.
  - now rewrite filter_cons.
  - destruct (Z.leb_spec x.1 y.1) as [Hle|Hgt].
    + now rewrite filter_cons.
    + rewrite !(filter_cons _ y), IHs.
      destruct (decide (x.1 = k)) as [Hx|Hx]; [|reflexivity].
      destruct (decide (y.1 = k)) as [Hy|Hy]; [lia | reflexivity].
Qed.

(** With pairwise distinct timestamps a list has one sorted
    arrangement. *)
Lemma sorted_arrangement_unique (l1 : list (Z * uint256)) :
  forall l2,
    NoDup (l1.*1) ->
    StronglySorted time_le l1 -> StronglySorted time_le l2 ->
    l1 ≡ₚ l2 -> l1 = l2.
Proof.
  induction l1 as [|x l1 IH]; intros l2 Hnd Hs1 Hs2 Hp.
  - symmetry. now apply Permutation_nil.
  - destruct l2 as [|y l2].
    { symmetry in Hp. apply Permutation_nil in Hp. discriminate. }
    apply StronglySorted_inv in Hs1 as [Hs1 Hx].
    apply StronglySorted_inv in Hs2 as [Hs2 Hy].
    rewrite fmap_cons in Hnd. apply NoDup_cons in Hnd as [Hfresh Hnd].
    assert (Hxy : x = y).
    { assert (Hyin : y ∈ x :: l1) by (rewrite Hp; left).
      apply elem_of_cons in Hyin as [Heq|Hyin]; [now symmetry|].
      assert (Hxin : x ∈ y :: l2) by (rewrite <- Hp; left).
      apply elem_of_cons in Hxin as [Heq|Hxin]; [exact Heq|].
      rewrite Forall_forall in Hx, Hy.
      pose proof (Hx y Hyin) as Hle1. pose proof (Hy x Hxin) as Hle2.
      unfold time_le in Hle1, Hle2.
      exfalso. apply Hfresh. replace x.1 with y.1 by lia.
      apply list_elem_of_fmap. now exists y. }
    subst y. f_equal. apply IH; try assumption.
    now apply Permutation_cons_inv in Hp.
Qed.

(** C6 (amended). Whatever sorted permutation [std::sort] returns,
    when the timestamps of the candidates collected from [prev] are
    pairwise distinct, reversing the list and sorting it yields the
    list that a stable sort by timestamp yields on the list as
    collected, and [ComputeNextStakeModifier] computes what it would
    compute with that stable sort in place of the reversal and sort. *)
Theorem reverse_then_sort_distinct_timestamps
    (mapBlockIndex : gmap uint256 CBlockIndex) (prev : CBlockIndex) (w : World) :
  (forall l, std_sort l ≡ₚ l) ->
  (forall l, StronglySorted time_le (std_sort l)) ->
  let candidates := collect_candidates (selection_interval_start prev) prev in
  NoDup (candidates.*1) ->
  std_sort (rev candidates) = stable_sort_by_time candidates
  /\ ComputeNextStakeModifier mapBlockIndex (Some prev) w
     = ComputeNextStakeModifier_stable_sort mapBlockIndex (Some prev) w.
Proof.
  intros Hperm Hsorted candidates Hnd.
  assert (Heq : std_sort (rev candidates) = stable_sort_by_time candidates).
  { symmetry. apply sorted_arrangement_unique.
    - now rewrite stable_sort_by_time_Permutation.
    - apply stable_sort_by_time_sorted.
    - apply Hsorted.
    - now rewrite stable_sort_by_time_Permutation, Hperm, <- Permutation_rev. }
  split; [exact Heq|].
  unfold ComputeNextStakeModifier, ComputeNextStakeModifier_stable_sort.
  fold candidates. now rewrite Heq.
Qed.

(** ** Selection of a block from the candidates *)

Section Selection.
Variables (mapBlockIndex mapSelectedBlocks : gmap uint256 CBlockIndex).
Variables (nSelectionIntervalStop nStakeModifierPrev : Z).

Local Abbreviation loop :=
  (select_loop mapBlockIndex mapSelectedBlocks nSelectionIntervalStop nStakeModifierPrev).
Local Abbreviation sel_hash := (selection_hash nStakeModifierPrev).
Local Abbreviation indexed := (indexed mapBlockIndex).
Local Abbreviation within_stop := (within_stop mapBlockIndex nSelectionIntervalStop).

(** One turn of the loop, with the compared number named. *)
Lemma select_loop_cons item rest fSelected hashBest pindexSelected :
  loop (item :: rest) fSelected hashBest pindexSelected =
  match mapBlockIndex !! item.2 with
  | None =>
      r <- error "SelectBlockFromCandidates: failed to find block index for candidate block" ;;
      ret (r, pindexSelected)
  | Some pindex =>
      if fSelected && (nSelectionIntervalStop <? GetBlockTime pindex)
      then ret (fSelected, pindexSelected)
      else if bool_decide (is_Some (mapSelectedBlocks !! GetBlockHash pindex))
      then loop rest fSelected hashBest pindexSelected
      else if fSelected && (sel_hash pindex <? hashBest)
      then loop rest fSelected (sel_hash pindex) (Some pindex)
      else if negb fSelected
      then loop rest true (sel_hash pindex) (Some pindex)
      else loop rest fSelected hashBest pindexSelected
  end.
Proof.
  cbn [select_loop].
  destruct (mapBlockIndex !! item.2) as [pindex|]; [|reflexivity].
  cbv zeta. unfold selection_hash, raw_selection_hash, shr.
  rewrite Z.shiftr_div_pow2 by lia. reflexivity.
Qed.

(** Once a block is selected, the rest of the loop ends with a block
    whose number is no larger. *)
Lemma select_loop_keeps_best items :
  forall hashBest s w,
    Forall indexed items ->
    sel_hash s = hashBest ->
    exists win,
      loop items true hashBest (Some s) w = Done (true, Some win) w
      /\ sel_hash win <= hashBest
      /\ (win = s \/ exists item, item ∈ items /\ mapBlockIndex !! item.2 = Some win).
Proof.
  induction items as [|item rest IH]; intros hashBest s w Hidx Hs.
  - exists s. split; [reflexivity|]. split; [lia | now left].
  - apply Forall_cons in Hidx as [[q Hq] Hidx].
    rewrite select_loop_cons, Hq. cbn [andb negb].
    destruct (nSelectionIntervalStop <? GetBlockTime q).
    { exists s. split; [reflexivity|]. split; [lia | now left]. }
    destruct (bool_decide (is_Some (mapSelectedBlocks !! GetBlockHash q))).
    { destruct (IH hashBest s w Hidx Hs) as (win & Hrun & Hle & Hin).
      exists win. split; [exact Hrun|]. split; [exact Hle|].
      destruct Hin as [->|(it & Hit & Hwin)]; [now left|].
      right. exists it. split; [now right | exact Hwin]. }
    destruct (Z.ltb_spec (sel_hash q) hashBest) as [Hlt|Hge].
    + destruct (IH (sel_hash q) q w Hidx eq_refl) as (win & Hrun & Hle & Hin).
      exists win. split; [exact Hrun|]. split; [lia|]. right.
      destruct Hin as [->|(it & Hit & Hwin)].
      * exists item. split; [now left | exact Hq].
      * exists it. split; [now right | exact Hwin].
    + destruct (IH hashBest s w Hidx Hs) as (win & Hrun & Hle & Hin).
      exists win. split; [exact Hrun|]. split; [exact Hle|].
      destruct Hin as [->|(it & Hit & Hwin)]; [now left|].
      right. exists it. split; [now right | exact Hwin].
Qed.

(** A candidate that is indexed, not yet selected and within the
    stop, and before which no candidate is beyond the stop, is
    examined: the loop ends with a block whose number is at most
    that candidate's. *)
Lemma select_loop_examines pre :
  forall fSelected hashBest pindexSelected w c post p,
    Forall indexed (pre ++ c :: post) ->
    Forall within_stop pre ->
    mapBlockIndex !! c.2 = Some p ->
    mapSelectedBlocks !! GetBlockHash p = None ->
    GetBlockTime p <= nSelectionIntervalStop ->
    (fSelected = true -> exists s, pindexSelected = Some s /\ sel_hash s = hashBest) ->
    exists win,
      loop (pre ++ c :: post) fSelected hashBest pindexSelected w
      = Done (true, Some win) w
      /\ sel_hash win <= sel_hash p
      /\ ((fSelected = true /\ pindexSelected = Some win)
          \/ exists item, item ∈ pre ++ c :: post /\ mapBlockIndex !! item.2 = Some win).
Proof.
  induction pre as [|a pre IH];
    intros fSelected hashBest pindexSelected w c post p Hidx Hpre Hc Hfree Htime Hinv.
  - cbn [app] in *. apply Forall_cons in Hidx as [_ Hidx].
    rewrite select_loop_cons, Hc.
    destruct (Z.ltb_spec nSelectionIntervalStop (GetBlockTime p)) as [Hlt|_]; [lia|].
    rewrite andb_false_r, Hfree.
    rewrite bool_decide_eq_false_2 by (intros [? ?]; discriminate).
    destruct fSelected; cbn [andb negb].
    + destruct (Hinv eq_refl) as (s & -> & Hs).
      destruct (Z.ltb_spec (sel_hash p) hashBest) as [Hlt|Hge].
      * destruct (select_loop_keeps_best post (sel_hash p) p w Hidx eq_refl)
          as (win & Hrun & Hle & Hin).
        exists win. split; [exact Hrun|]. split; [exact Hle|]. right.
        destruct Hin as [->|(it & Hit & Hwin)].
        -- exists c. split; [now left | exact Hc].
        -- exists it. split; [now right | exact Hwin].
      * destruct (select_loop_keeps_best post hashBest s w Hidx Hs)
          as (win & Hrun & Hle & Hin).
        exists win. split; [exact Hrun|]. split; [lia|].
        destruct Hin as [->|(it & Hit & Hwin)]; [now left|].
        right. exists it. split; [now right | exact Hwin].
    + destruct (select_loop_keeps_best post (sel_hash p) p w Hidx eq_refl)
        as (win & Hrun & Hle & Hin).
      exists win. split; [exact Hrun|]. split; [exact Hle|]. right.
      destruct Hin as [->|(it & Hit & Hwin)].
      * exists c. split; [now left | exact Hc].
      * exists it. split; [now right | exact Hwin].
  - cbn [app] in *.
    apply Forall_cons in Hidx as [[q Hq] Hidx].
    apply Forall_cons in Hpre as [Ha Hpre].
    pose proof (Ha q Hq) as Hqtime.
    rewrite select_loop_cons, Hq.
    destruct (Z.ltb_spec nSelectionIntervalStop (GetBlockTime q)) as [Hlt|_]; [lia|].
    rewrite andb_false_r.
    assert (Hstep : forall fSelected' hashBest' pindexSelected',
               (fSelected' = true ->
                exists s, pindexSelected' = Some s /\ sel_hash s = hashBest') ->
               (fSelected' = true -> pindexSelected' = Some q
                                     \/ (fSelected = true /\ pindexSelected' = pindexSelected)) ->
               exists win,
                 loop (pre ++ c :: post) fSelected' hashBest' pindexSelected' w
                 = Done (true, Some win) w
                 /\ sel_hash win <= sel_hash p
                 /\ ((fSelected = true /\ pindexSelected = Some win)
                     \/ exists item, item ∈ a :: pre ++ c :: post
                                     /\ mapBlockIndex !! item.2 = Some win)).
    { intros f' b' s' Hinv' Horigin.
      destruct (IH f' b' s' w c post p Hidx Hpre Hc Hfree Htime Hinv')
        as (win & Hrun & Hle & Hin).
      exists win. split; [exact Hrun|]. split; [exact Hle|].
      destruct Hin as [[Hf' Hs']|(it & Hit & Hwin)].
      - destruct (Horigin Hf') as [Hq'|[Hf Hsame]].
        + right. exists a. split; [now left|]. congruence.
        + left. split; [exact Hf | congruence].
      - right. exists it. split; [now right | exact Hwin]. }
    destruct (bool_decide (is_Some (mapSelectedBlocks !! GetBlockHash q))).
    { apply Hstep; [exact Hinv|]. intros Hf. right. now split. }
    destruct fSelected; cbn [andb negb].
    + destruct (Z.ltb_spec (sel_hash q) hashBest) as [Hlt|Hge].
      * apply Hstep; [intros _; now exists q | intros _; now left].
      * apply Hstep; [exact Hinv | intros _; right; now split].
    + apply Hstep; [intros _; now exists q | intros _; now left].
Qed.

End Selection.

(** C7. In [SelectBlockFromCandidates] the number compared for a
    proof-of-stake candidate is [H(hash_proof_of_stake || M_prev)]
    shifted right by 32 bits and for a proof-of-work candidate the
    unshifted [H(block_hash || M_prev)]: a round of the eligible
    proof-of-stake candidate [pos], of raw hash [X], and any eligible
    rival is decided, in either order, by comparing [X >> 32] with the
    rival's raw hash, shifted by 32 bits when the rival is itself
    proof-of-stake and as it is when the rival is proof-of-work, the
    candidate listed first winning a tie. Hence, when [pos] and a
    proof-of-work candidate [pow] have the same raw hash [X >= 2^32]
    and [pos] is eligible in the round (indexed, not yet selected, not
    later than the stop, as are the candidates listed before it), the
    round selects a block whose number is below [X]: never [pow]; and
    when the round has no candidates other than these two, in
    whichever order, it selects [pos]. *)
Theorem SelectBlockFromCandidates_favours_stake
    (mapBlockIndex mapSelectedBlocks : gmap uint256 CBlockIndex)
    (nSelectionIntervalStop nStakeModifierPrev : Z)
    (pre post : list (Z * uint256)) (c : Z * uint256)
    (pos pow : CBlockIndex) (X : Z) (w : World) :
  let vSortedByTimestamp := pre ++ c :: post in
  Forall (indexed mapBlockIndex) vSortedByTimestamp ->
  Forall (within_stop mapBlockIndex nSelectionIntervalStop) pre ->
  mapBlockIndex !! c.2 = Some pos ->
  mapSelectedBlocks !! GetBlockHash pos = None ->
  GetBlockTime pos <= nSelectionIntervalStop ->
  IsProofOfStake pos = true ->
  IsProofOfStake pow = false ->
  UintToArith256 (Hash (ser_uint256 (hashProofOfStake pos) ++ le64 nStakeModifierPrev)) = X ->
  UintToArith256 (Hash (ser_uint256 (GetBlockHash pow) ++ le64 nStakeModifierPrev)) = X ->
  2 ^ 32 <= X ->
  selection_hash nStakeModifierPrev pos = Z.shiftr X 32
  /\ selection_hash nStakeModifierPrev pow = X
  /\ (exists win,
       SelectBlockFromCandidates mapBlockIndex vSortedByTimestamp mapSelectedBlocks
         nSelectionIntervalStop nStakeModifierPrev w
       = Done (true, Some win) w
       /\ selection_hash nStakeModifierPrev win < X
       /\ win <> pow
       /\ (Forall (fun item => mapBlockIndex !! item.2 = Some pos
                               \/ mapBlockIndex !! item.2 = Some pow)
                  vSortedByTimestamp -> win = pos))
  /\ forall (rival : CBlockIndex) (r : Z * uint256),
       mapBlockIndex !! r.2 = Some rival ->
       mapSelectedBlocks !! GetBlockHash rival = None ->
       GetBlockTime rival <= nSelectionIntervalStop ->
       let raw :=
         UintToArith256
           (Hash (ser_uint256 (if IsProofOfStake rival
                               then hashProofOfStake rival else GetBlockHash rival)
                  ++ le64 nStakeModifierPrev)) in
       let number := if IsProofOfStake rival then Z.shiftr raw 32 else raw in
       SelectBlockFromCandidates mapBlockIndex [r; c] mapSelectedBlocks
         nSelectionIntervalStop nStakeModifierPrev w
       = Done (true, Some (if Z.shiftr X 32 <? number then pos else rival)) w
       /\ SelectBlockFromCandidates mapBlockIndex [c; r] mapSelectedBlocks
            nSelectionIntervalStop nStakeModifierPrev w
          = Done (true, Some (if number <? Z.shiftr X 32 then rival else pos)) w.
Proof.
  intros vs Hidx Hpre Hc Hfree Htime Hpos Hpow Hraw_pos Hraw_pow HX.
  assert (Hsel_pos : selection_hash nStakeModifierPrev pos = Z.shiftr X 32).
  { unfold selection_hash, raw_selection_hash. rewrite Hpos, Hraw_pos.
    now rewrite Z.shiftr_div_pow2 by lia. }
  assert (Hsel_pow : selection_hash nStakeModifierPrev pow = X).
  { unfold selection_hash, raw_selection_hash. now rewrite Hpow, Hraw_pow. }
  assert (Hshift : Z.shiftr X 32 < X).
  { rewrite Z.shiftr_div_pow2 by lia. apply Z.div_lt; lia. }
  split; [exact Hsel_pos|]. split; [exact Hsel_pow|].
  split.
  - destruct (select_loop_examines mapBlockIndex mapSelectedBlocks nSelectionIntervalStop
                nStakeModifierPrev pre false 0 None w c post pos
                Hidx Hpre Hc Hfree Htime) as (win & Hrun & Hle & Hin);
      [discriminate|].
    exists win. split; [exact Hrun|].
    assert (Hlt : selection_hash nStakeModifierPrev win < X) by lia.
    split; [exact Hlt|].
    assert (Hne : win <> pow) by (intros ->; lia).
    split; [exact Hne|].
    intros Honly. destruct Hin as [[Hf _]|(item & Hitem & Hwin)]; [discriminate|].
    rewrite Forall_forall in Honly.
    destruct (Honly item Hitem) as [Hp|Hp]; congruence.
  - intros rival r Hr Hrfree Hrtime raw number.
    assert (Hsel_rival : selection_hash nStakeModifierPrev rival = number).
    { unfold selection_hash, raw_selection_hash, number, raw.
      destruct (IsProofOfStake rival); [|reflexivity].
      now rewrite Z.shiftr_div_pow2 by lia. }
    assert (Hpos_in : (nSelectionIntervalStop <? GetBlockTime pos) = false)
      by (apply Z.ltb_ge; exact Htime).
    assert (Hrival_in : (nSelectionIntervalStop <? GetBlockTime rival) = false)
      by (apply Z.ltb_ge; exact Hrtime).
    unfold SelectBlockFromCandidates. split.
    + rewrite select_loop_cons, Hr. cbn [andb]. rewrite Hrfree.
      rewrite bool_decide_eq_false_2 by (intros [? ?]; discriminate).
      cbn [andb negb].
      rewrite select_loop_cons, Hc, Hpos_in. cbn [andb]. rewrite Hfree.
      rewrite bool_decide_eq_false_2 by (intros [? ?]; discriminate).
      rewrite Hsel_pos, Hsel_rival. cbn [andb negb].
      now destruct (Z.shiftr X 32 <? number).
    + rewrite select_loop_cons, Hc. cbn [andb]. rewrite Hfree.
      rewrite bool_decide_eq_false_2 by (intros [? ?]; discriminate).
      cbn [andb negb].
      rewrite select_loop_cons, Hr, Hrival_in. cbn [andb]. rewrite Hrfree.
      rewrite bool_decide_eq_false_2 by (intros [? ?]; discriminate).
      rewrite Hsel_pos, Hsel_rival. cbn [andb negb].
      now destruct (number <? Z.shiftr X 32).
Qed.

End Properties.

(** * Further properties of the functions *)

Section Further.
Context `{Collaborators}.

(** ** Serialization round trips *)

Lemma byte_of_Z_of_byte (b : byte) : byte_of_Z (Z_of_byte b) = b.
Proof. destruct b; reflexivity. Qed.

Lemma byte_of_Z_mod (z : Z) : byte_of_Z (z mod 256) = byte_of_Z z.
Proof.
  unfold byte_of_Z. change 256 with (2 ^ 8).
  rewrite !Z.mod_pow2_bits_low by lia. reflexivity.
Qed.

Lemma Z_of_byte_of_Z (z : Z) : Z_of_byte (byte_of_Z z) = z mod 256.
Proof.
  rewrite <- byte_of_Z_mod.
  assert (Hr : 0 <= z mod 256 < 256) by (apply Z.mod_pos_bound; lia).
  destruct (Byte.of_N (Z.to_N (z mod 256))) as [b|] eqn:Hb.
  - apply Byte.to_of_N in Hb.
    assert (Hz : z mod 256 = Z_of_byte b) by (unfold Z_of_byte; lia).
    rewrite Hz. now rewrite byte_of_Z_of_byte.
  - apply Byte.of_N_None_iff in Hb. lia.
Qed.

Lemma le_value_le_bytes (k : nat) : forall z, le_value (le_bytes k z) = z mod 256 ^ Z.of_nat k.
Proof.
  induction k as [|k IH]; intros z.
  - simpl. now rewrite Z.mod_1_r.
  - cbn [le_bytes le_value]. rewrite IH, Z_of_byte_of_Z, Z.shiftr_div_pow2 by lia.
    rewrite Nat2Z.inj_succ, Z.pow_succ_r by lia.
    change (2 ^ 8) with 256.
    rewrite (Z.rem_mul_r z 256 (256 ^ Z.of_nat k)) by lia. reflexivity.
Qed.

Lemma UintToArith256_ArithToUint256 (a : Z) :
  UintToArith256 (ArithToUint256 a) = a mod 2 ^ 256.
Proof.
  unfold UintToArith256, ArithToUint256, ser_uint256.
  rewrite take_app_length' by (now rewrite length_le_bytes).
  apply (le_value_le_bytes 32).
Qed.

Lemma le_bytes_mod (k : nat) : forall z, le_bytes k (z mod 256 ^ Z.of_nat k) = le_bytes k z.
Proof.
  induction k as [|k IH]; intros z; [reflexivity|].
  cbn [le_bytes]. rewrite Nat2Z.inj_succ, Z.pow_succ_r by lia.
  assert (Hpos : 0 < 256 ^ Z.of_nat k) by (apply Z.pow_pos_nonneg; lia).
  f_equal.
  - rewrite <- (byte_of_Z_mod z), <- (byte_of_Z_mod (z mod _)).
    rewrite (Z.rem_mul_r z 256 (256 ^ Z.of_nat k)) by lia.
    rewrite Z.mul_comm, Z.mod_add by lia. now rewrite Z.mod_mod by lia.
  - rewrite !Z.shiftr_div_pow2 by lia. change (2 ^ 8) with 256.
    rewrite <- (IH (z / 256)). f_equal.
    rewrite (Z.rem_mul_r z 256 (256 ^ Z.of_nat k)) by lia.
    rewrite Z.mul_comm, Z.div_add by lia.
    rewrite (Z.div_small (z mod 256) 256) by (apply Z.mod_pos_bound; lia).
    reflexivity.
Qed.

Lemma le_bytes_eq_iff (k : nat) (z z' : Z) :
  le_bytes k z = le_bytes k z' <-> z mod 256 ^ Z.of_nat k = z' mod 256 ^ Z.of_nat k.
Proof.
  split; intros Heq.
  - now rewrite <- !le_value_le_bytes, Heq.
  - now rewrite <- (le_bytes_mod k z), Heq, le_bytes_mod.
Qed.

(** ** The time weight *)

(** [GetWeight] never exceeds [nStakeMaxAge], reaches it exactly
    from the age [nStakeMinAge + nStakeMaxAge] on, is negative exactly
    below the minimum age, and does not decrease when the interval end
    moves later. *)
Lemma GetWeight_clamp (nIntervalBeginning nIntervalEnd : Z) :
  GetWeight nIntervalBeginning nIntervalEnd <= nStakeMaxAge
  /\ (GetWeight nIntervalBeginning nIntervalEnd = nStakeMaxAge
      <-> nStakeMinAge + nStakeMaxAge <= nIntervalEnd - nIntervalBeginning)
  /\ (GetWeight nIntervalBeginning nIntervalEnd < 0
      <-> nIntervalEnd - nIntervalBeginning < nStakeMinAge)
  /\ (forall later, nIntervalEnd <= later ->
        GetWeight nIntervalBeginning nIntervalEnd <= GetWeight nIntervalBeginning later).
Proof.
  unfold GetWeight.
  assert (0 < nStakeMaxAge) by reflexivity.
  repeat split; intros; lia.
Qed.

(** ** The selection interval *)

(** X1. For every section number of the loop, [0 <= nSection < 64], the
    unsigned arithmetic of [GetStakeModifierSelectionIntervalSection]
    does not wrap: the section lasts [30240 / (189 - 2 nSection)]
    seconds, between 160 and 480, and no section is shorter than the
    one before it. *)
Theorem GetStakeModifierSelectionIntervalSection_range (nSection : Z) :
  0 <= nSection < 64 ->
  GetStakeModifierSelectionIntervalSection nSection = 30240 / (189 - 2 * nSection)
  /\ 160 <= GetStakeModifierSelectionIntervalSection nSection <= 480
  /\ (0 < nSection ->
      GetStakeModifierSelectionIntervalSection (nSection - 1)
      <= GetStakeModifierSelectionIntervalSection nSection).
Proof.
  intros Hn.
  assert (Hval : forall k, 0 <= k < 64 ->
            GetStakeModifierSelectionIntervalSection k = 30240 / (189 - 2 * k)).
  { intros k Hk. unfold GetStakeModifierSelectionIntervalSection,
      nModifierInterval, MODIFIER_INTERVAL_RATIO.
    rewrite !u32_small by lia. f_equal. lia. }
  split; [now apply Hval|]. split.
  - rewrite Hval by exact Hn. split.
    + change 160 with (30240 / 189). apply Z.div_le_compat_l; lia.
    + change 480 with (30240 / 63). apply Z.div_le_compat_l; lia.
  - intros Hpos. rewrite !Hval by lia. apply Z.div_le_compat_l; lia.
Qed.

(** ** The kernel stake modifier, continued *)

(** X2. When [GetKernelStakeModifier] succeeds it has logged nothing,
    and the modifier, height and time it returns are those of a block
    strictly after [pindexFrom] on the chain that carries a generated
    modifier and whose time is at least one selection interval (16900
    seconds) after [pindexFrom]'s: never of [pindexFrom] itself. *)
Theorem GetKernelStakeModifier_later_block
    (pindexFrom : CBlockIndex) (w w' : World) (nStakeModifier' height time : Z) :
  GetKernelStakeModifier pindexFrom w = Done (true, (nStakeModifier', height, time)) w' ->
  w' = w
  /\ nTime pindexFrom + 16900 <= time
  /\ exists q, In q (successors pindexFrom)
               /\ GeneratedStakeModifier q = true
               /\ nStakeModifier' = nStakeModifier q
               /\ height = nHeight q /\ time = nTime q.
Proof.
  intros Hrun. unfold GetKernelStakeModifier in Hrun.
  pose proof (kernel_modifier_loop_walk
                (nTime pindexFrom + GetStakeModifierSelectionInterval)
                GetStakeModifierSelectionInterval pindexFrom
                (nHeight pindexFrom) (nTime pindexFrom) w) as Hwalk.
  rewrite selection_interval_value in Hwalk, Hrun.
  specialize (Hwalk ltac:(lia)).
  destruct (find _ (successors pindexFrom)) as [q|] eqn:Hfind.
  - rewrite Hwalk in Hrun. injection Hrun as HM Hh Ht Hw. subst nStakeModifier' height time w'.
    apply find_some in Hfind as [Hin Hq].
    apply andb_true_iff in Hq as [Hgen Htime]. apply Z.leb_le in Htime.
    split; [reflexivity|]. split; [exact Htime|].
    exists q. repeat split; assumption.
  - destruct Hwalk as (h' & t' & Hwalk). rewrite Hwalk in Hrun.
    destruct (adjusted_time w <? _); discriminate.
Qed.

(** X3. A coin of the tip block cannot stake: when [pindexFrom] has no
    successor, [GetKernelStakeModifier] fails, with modifier 0 and the
    height and time of [pindexFrom] in the references, and the
    validation state is not touched. *)
Theorem GetKernelStakeModifier_at_tip (pindexFrom : CBlockIndex) (w : World) :
  pnext pindexFrom = None ->
  exists w',
    GetKernelStakeModifier pindexFrom w
    = Done (false, (0, nHeight pindexFrom, nTime pindexFrom)) w'
    /\ state w' = state w
    /\ (w' = w \/ w' = logged "GetKernelStakeModifier() : reached best block" w).
Proof.
  intros Htip. unfold GetKernelStakeModifier.
  rewrite kernel_modifier_loop_unfold, Htip.
  rewrite selection_interval_value.
  destruct (Z.ltb_spec (nTime pindexFrom) (nTime pindexFrom + 16900)) as [_|Hge]; [|lia].
  unfold bind, GetAdjustedTime, error, ret.
  destruct (adjusted_time w <? _); eexists; (split; [reflexivity|]); split;
    try reflexivity; [right | left]; reflexivity.
Qed.

Lemma GetKernelStakeModifier_frame (pindexFrom : CBlockIndex) (w : World) :
  exists r w',
    GetKernelStakeModifier pindexFrom w = Done r w'
    /\ state w' = state w /\ adjusted_time w' = adjusted_time w
    /\ (r.1 = true -> w' = w).
Proof.
  unfold GetKernelStakeModifier.
  pose proof (kernel_modifier_loop_walk
                (nTime pindexFrom + GetStakeModifierSelectionInterval)
                GetStakeModifierSelectionInterval pindexFrom
                (nHeight pindexFrom) (nTime pindexFrom) w) as Hwalk.
  rewrite selection_interval_value in *.
  specialize (Hwalk ltac:(lia)).
  destruct (find _ (successors pindexFrom)) as [q|].
  - rewrite Hwalk. eexists _, _. repeat split; reflexivity.
  - destruct Hwalk as (h' & t' & ->).
    destruct (adjusted_time w <? _); eexists _, _;
      (split; [reflexivity|]); repeat split; try reflexivity; discriminate.
Qed.

(** ** The kernel-hash checker, continued *)

Lemma CheckStakeKernelHash_without_modifier
    (nBits : Z) (blockFrom : CBlockIndex) (txPrev : CTransaction)
    (nTxPrevOffset : Z) (prevout : COutPoint) (nTimeTx : Z)
    (hashProof0 targetProof0 : uint256) (out : CTxOut)
    (r : Z * Z * Z) (w w' : World) :
  0 <= nTime blockFrom -> nTimeTx < 2 ^ 32 ->
  tx_nTime txPrev <= nTimeTx ->
  nTime blockFrom + nStakeMinAge <= nTimeTx ->
  vout txPrev !! Z.to_nat (n prevout) = Some out ->
  GetKernelStakeModifier blockFrom w = Done (false, r) w' ->
  CheckStakeKernelHash nBits (Some blockFrom) txPrev nTxPrevOffset prevout nTimeTx
    hashProof0 targetProof0 w
  = Done (false, hashProof0,
          ArithToUint256
            (mul (coin_day_weight (nValue out) (tx_nTime txPrev) nTimeTx) (SetCompact nBits)))
         w'.
Proof.
  intros Hfrom Htx Hprev Hage Hout Hmod.
  unfold CheckStakeKernelHash.
  destruct (Z.ltb_spec nTimeTx (tx_nTime txPrev)) as [Hlt|_]; [lia|].
  unfold bind at 1. unfold deref, ret at 1.
  rewrite u32_small by (unfold nStakeMinAge in *; lia).
  destruct (Z.ltb_spec nTimeTx (nTime blockFrom + nStakeMinAge)) as [Hlt|_]; [lia|].
  unfold bind at 1. unfold vector_at. rewrite Hout. unfold ret at 1.
  unfold bind at 1. rewrite Hmod. reflexivity.
Qed.

(** X4. When the time checks pass but the kernel modifier is not
    available, [CheckStakeKernelHash] answers false without any DoS
    score: the validation state is as on entry, [hashProofOfStake]
    keeps its old value, while [targetProofOfStake] has already been
    overwritten with the product [coin_day_weight * target]. *)
Theorem CheckStakeKernelHash_modifier_unavailable
    (nBits : Z) (blockFrom : CBlockIndex) (txPrev : CTransaction)
    (nTxPrevOffset : Z) (prevout : COutPoint) (nTimeTx : Z)
    (hashProof0 targetProof0 : uint256) (out : CTxOut)
    (r : Z * Z * Z) (w w' : World) :
  0 <= nTime blockFrom -> nTimeTx < 2 ^ 32 ->
  tx_nTime txPrev <= nTimeTx ->
  nTime blockFrom + nStakeMinAge <= nTimeTx ->
  vout txPrev !! Z.to_nat (n prevout) = Some out ->
  GetKernelStakeModifier blockFrom w = Done (false, r) w' ->
  CheckStakeKernelHash nBits (Some blockFrom) txPrev nTxPrevOffset prevout nTimeTx
    hashProof0 targetProof0 w
  = Done (false, hashProof0,
          ArithToUint256
            (mul (coin_day_weight (nValue out) (tx_nTime txPrev) nTimeTx) (SetCompact nBits)))
         w'
  /\ state w' = state w.
Proof.
  intros Hfrom Htx Hprev Hage Hout Hmod.
  split.
  - now apply CheckStakeKernelHash_without_modifier with (r := r).
  - destruct (GetKernelStakeModifier_frame blockFrom w) as (r0 & w0 & Hrun & Hst & _).
    rewrite Hrun in Hmod. injection Hmod as _ <-. exact Hst.
Qed.

(** X5. The two outputs of a completed kernel check carry the verdict:
    when the time checks pass and the modifier is available,
    [CheckStakeKernelHash] answers true exactly when the stored
    [hashProofOfStake], read as a 256-bit number, does not exceed the
    stored [targetProofOfStake] read the same way. *)
Theorem CheckStakeKernelHash_verdict_from_outputs
    (nBits : Z) (blockFrom : CBlockIndex) (txPrev : CTransaction)
    (nTxPrevOffset : Z) (prevout : COutPoint) (nTimeTx : Z)
    (hashProof0 targetProof0 : uint256) (out : CTxOut)
    (M height time : Z) (w w' : World) :
  0 <= nTime blockFrom -> nTimeTx < 2 ^ 32 ->
  tx_nTime txPrev <= nTimeTx ->
  nTime blockFrom + nStakeMinAge <= nTimeTx ->
  vout txPrev !! Z.to_nat (n prevout) = Some out ->
  GetKernelStakeModifier blockFrom w = Done (true, (M, height, time)) w' ->
  exists hashProof targetProof,
    CheckStakeKernelHash nBits (Some blockFrom) txPrev nTxPrevOffset prevout nTimeTx
      hashProof0 targetProof0 w
    = Done (UintToArith256 hashProof <=? UintToArith256 targetProof,
            hashProof, targetProof) w'.
Proof.
  intros Hfrom Htx Hprev Hage Hout Hmod.
  unfold CheckStakeKernelHash.
  destruct (Z.ltb_spec nTimeTx (tx_nTime txPrev)) as [Hlt|_]; [lia|].
  unfold bind at 1. unfold deref, ret at 1.
  rewrite u32_small by (unfold nStakeMinAge in *; lia).
  destruct (Z.ltb_spec nTimeTx (nTime blockFrom + nStakeMinAge)) as [Hlt|_]; [lia|].
  unfold bind at 1. unfold vector_at. rewrite Hout. unfold ret at 1.
  unfold bind at 1. rewrite Hmod. cbn [fst snd negb].
  set (T := mul (coin_day_weight (nValue out) (tx_nTime txPrev) nTimeTx) (SetCompact nBits)).
  set (hp := Hash (kernel_stream M (nTime blockFrom) nTxPrevOffset (tx_nTime txPrev)
                     (n prevout) nTimeTx)).
  exists hp, (ArithToUint256 T).
  assert (HT : UintToArith256 (ArithToUint256 T) = T).
  { rewrite UintToArith256_ArithToUint256. unfold T, mul, u256.
    now rewrite Z.mod_mod by lia. }
  rewrite HT.
  destruct (Z.ltb_spec T (UintToArith256 hp)) as [Hgt|Hle];
    destruct (Z.leb_spec (UintToArith256 hp) T) as [Hle'|Hgt']; try lia; reflexivity.
Qed.

(** X6. The stream hashed for the kernel is a fixed-width encoding of
    28 bytes: two tuples give the same stream exactly when the
    modifiers agree modulo 2^64 and the five other fields agree modulo
    2^32, so distinct well-typed tuples are never hashed alike by
    construction of the stream. *)
Theorem kernel_stream_injective (m t1 o t2 k t3 m' t1' o' t2' k' t3' : Z) :
  length (kernel_stream m t1 o t2 k t3) = 28%nat
  /\ (kernel_stream m t1 o t2 k t3 = kernel_stream m' t1' o' t2' k' t3'
      <-> m mod 2 ^ 64 = m' mod 2 ^ 64
          /\ t1 mod 2 ^ 32 = t1' mod 2 ^ 32 /\ o mod 2 ^ 32 = o' mod 2 ^ 32
          /\ t2 mod 2 ^ 32 = t2' mod 2 ^ 32 /\ k mod 2 ^ 32 = k' mod 2 ^ 32
          /\ t3 mod 2 ^ 32 = t3' mod 2 ^ 32).
Proof.
  unfold kernel_stream, le32, le64. cbn [app].
  split.
  { rewrite !length_app, !length_le_bytes. reflexivity. }
  change (2 ^ 64) with (256 ^ Z.of_nat 8). change (2 ^ 32) with (256 ^ Z.of_nat 4).
  rewrite <- !le_bytes_eq_iff.
  split.
  - intros Heq.
    apply app_inj_1 in Heq as [? Heq]; [|now rewrite !length_le_bytes].
    apply app_inj_1 in Heq as [? Heq]; [|now rewrite !length_le_bytes].
    apply app_inj_1 in Heq as [? Heq]; [|now rewrite !length_le_bytes].
    apply app_inj_1 in Heq as [? Heq]; [|now rewrite !length_le_bytes].
    apply app_inj_1 in Heq as [? Heq]; [|now rewrite !length_le_bytes].
    repeat split; assumption.
  - intros (-> & -> & -> & -> & -> & ->). reflexivity.
Qed.

(** ** The checksum chain, continued *)

(** X7. The stream hashed for the checksum is unambiguous: two index
    entries give the same stream exactly when they agree on having a
    predecessor and on its checksum, on the flags (modulo 2^32), on the
    32 bytes of the proof hash and on the modifier (modulo 2^64). In
    particular a genesis entry and an entry with a predecessor never
    hash the same stream; and entries that agree on these four items
    have the same checksum whatever their heights, times, block hashes
    and earlier ancestors. *)
Theorem checksum_stream_injective (p q : CBlockIndex) :
  let same_inputs :=
    ((fun b => nStakeModifierChecksum b mod 2 ^ 32) <$> pprev p)
    = ((fun b => nStakeModifierChecksum b mod 2 ^ 32) <$> pprev q)
    /\ nFlags p mod 2 ^ 32 = nFlags q mod 2 ^ 32
    /\ ser_uint256 (hashProofOfStake p) = ser_uint256 (hashProofOfStake q)
    /\ nStakeModifier p mod 2 ^ 64 = nStakeModifier q mod 2 ^ 64 in
  (checksum_stream p = checksum_stream q <-> same_inputs)
  /\ (same_inputs -> GetStakeModifierChecksum p = GetStakeModifierChecksum q).
Proof.
  intros same_inputs. subst same_inputs.
  enough (Hiff : checksum_stream p = checksum_stream q
                 <-> ((fun b => nStakeModifierChecksum b mod 2 ^ 32) <$> pprev p)
                     = ((fun b => nStakeModifierChecksum b mod 2 ^ 32) <$> pprev q)
                     /\ nFlags p mod 2 ^ 32 = nFlags q mod 2 ^ 32
                     /\ ser_uint256 (hashProofOfStake p) = ser_uint256 (hashProofOfStake q)
                     /\ nStakeModifier p mod 2 ^ 64 = nStakeModifier q mod 2 ^ 64).
  { split; [exact Hiff|]. intros Hsame. apply Hiff in Hsame.
    unfold GetStakeModifierChecksum. now rewrite Hsame. }
  unfold checksum_stream, le32, le64.
  change (2 ^ 64) with (256 ^ Z.of_nat 8). change (2 ^ 32) with (256 ^ Z.of_nat 4).
  rewrite <- !le_bytes_eq_iff.
  destruct (pprev p) as [pp|], (pprev q) as [qq|]; cbn [app fmap option_fmap option_map].
  - split.
    + intros Heq.
      apply app_inj_1 in Heq as [Hc Heq]; [|now rewrite !length_le_bytes].
      apply app_inj_1 in Heq as [? Heq]; [|now rewrite !length_le_bytes].
      apply app_inj_1 in Heq as [? Heq]; [|now rewrite !length_ser_uint256].
      apply (le_bytes_eq_iff 4) in Hc. repeat split; try assumption. now f_equal.
    + intros (Hc & -> & -> & ->). injection Hc as Hc.
      apply (le_bytes_eq_iff 4) in Hc. now rewrite Hc.
  - split.
    + intros Heq. apply (f_equal length) in Heq.
      rewrite !length_app, !length_le_bytes, !length_ser_uint256 in Heq. cbn in Heq. lia.
    + intros (Hc & _). discriminate.
  - split.
    + intros Heq. apply (f_equal length) in Heq.
      rewrite !length_app, !length_le_bytes, !length_ser_uint256 in Heq. cbn in Heq. lia.
    + intros (Hc & _). discriminate.
  - split.
    + intros Heq.
      apply app_inj_1 in Heq as [? Heq]; [|now rewrite !length_le_bytes].
      apply app_inj_1 in Heq as [? Heq]; [|now rewrite !length_ser_uint256].
      repeat split; assumption.
    + intros (_ & -> & -> & ->). reflexivity.
Qed.

(** ** The coinstake validator, continued *)

Lemma CheckStakeKernelHash_state
    (nBits : Z) (pBlockFrom : option CBlockIndex) (txPrev : CTransaction)
    (nTxPrevOffset : Z) (prevout : COutPoint) (nTimeTx : Z)
    (hashProof0 targetProof0 : uint256) (w w' : World) (r : bool * uint256 * uint256) :
  CheckStakeKernelHash nBits pBlockFrom txPrev nTxPrevOffset prevout nTimeTx
    hashProof0 targetProof0 w = Done r w' ->
  (r.1.1 = true -> state w' = state w)
  /\ nDoS (state w) <= nDoS (state w').
Proof.
  unfold CheckStakeKernelHash.
  destruct (nTimeTx <? tx_nTime txPrev).
  { intros Hrun. injection Hrun as <- <-. cbn. split; [discriminate | lia]. }
  destruct pBlockFrom as [blockFrom|]; [|discriminate].
  unfold bind at 1. unfold deref, ret at 1.
  destruct (nTimeTx <? u32 (nTime blockFrom + nStakeMinAge)).
  { intros Hrun. injection Hrun as <- <-. cbn. split; [discriminate | lia]. }
  unfold bind at 1. unfold vector_at.
  destruct (vout txPrev !! Z.to_nat (n prevout)) as [out|]; [|discriminate].
  unfold ret at 1. unfold bind at 1.
  destruct (GetKernelStakeModifier_frame blockFrom w) as (r0 & w0 & Hrun0 & Hst & _ & _).
  rewrite Hrun0.
  destruct (negb r0.1).
  { intros Hrun. injection Hrun as <- <-. cbn. split; [discriminate | rewrite Hst; lia]. }
  destruct (_ <? _); intros Hrun; injection Hrun as <- <-; cbn;
    (split; [intros _; exact Hst | rewrite Hst; lia]).
Qed.

(** X8. [CheckProofOfStake] never answers false without rejecting:
    whenever it returns, either the answer is true and the validation
    state is as on entry, or the answer is false, the state is marked
    invalid and its DoS score has grown by at least 100. This holds on
    every path, the one where the kernel modifier is merely not yet
    available included. *)
Theorem CheckProofOfStake_false_is_reject
    (blockTreeDB : gmap uint256 CDiskTxPos) (pindexPrev : option CBlockIndex)
    (block : CBlock) (hashProof0 targetProof0 : uint256)
    (mapBlockIndex : gmap uint256 CBlockIndex) (view : gmap (uint256 * Z) Coin)
    (w w' : World) (ok : bool) (hashProof targetProof : uint256) :
  CheckProofOfStake blockTreeDB pindexPrev block hashProof0 targetProof0
    mapBlockIndex view w = Done (ok, hashProof, targetProof) w' ->
  if ok then state w' = state w
  else invalid (state w') = true /\ nDoS (state w) + 100 <= nDoS (state w').
Proof.
  assert (Hrej : forall (msg : string) (a b : uint256) (w0 : World),
            nDoS (state w) <= nDoS (state w0) ->
            reject msg (fun r : bool => (r, a, b)) w0 = Done (ok, hashProof, targetProof) w' ->
            if ok then state w' = state w
            else invalid (state w') = true /\ nDoS (state w) + 100 <= nDoS (state w')).
  { intros msg a b w0 Hw0 Hrun. unfold reject, bind, error, DoS, ret in Hrun.
    injection Hrun as <- _ _ <-. cbn. split; [reflexivity | lia]. }
  unfold CheckProofOfStake, vector_at. cbv zeta.
  destruct (vtx block !! Z.to_nat 1) as [tx|]; [|discriminate].
  unfold bind at 1. unfold ret at 1.
  destruct (negb (IsCoinStake tx)); [apply Hrej; lia|].
  destruct (vin tx !! Z.to_nat 0) as [txin|]; [|discriminate].
  unfold bind at 1. unfold ret at 1.
  destruct (blockTreeDB !! hash (prevout txin)) as [txindex|]; [|apply Hrej; lia].
  destruct (OpenBlockFile txindex) as [[rec|]|]; [|apply Hrej; lia|apply Hrej; lia].
  destruct (view !! (hash (prevout txin), n (prevout txin))) as [coinPrev|];
    [|apply Hrej; lia].
  destruct pindexPrev as [prev|]; [|discriminate].
  unfold bind at 1. unfold deref, ret at 1.
  destruct (_ <? _); [apply Hrej; lia|].
  destruct (GetAncestor prev (coin_nHeight coinPrev)) as [blockAtCoin|]; [|apply Hrej; lia].
  unfold bind at 1.
  destruct (CheckStakeKernelHash _ _ _ _ _ _ _ _ w) as [r w1|] eqn:Hkernel; [|discriminate].
  apply CheckStakeKernelHash_state in Hkernel as [Htrue Hscore].
  destruct r.1.1 eqn:Hok; cbn [negb].
  - unfold ret. intros Hrun. injection Hrun as <- _ _ <-. now apply Htrue.
  - apply Hrej. exact Hscore.
Qed.

(** X9. Every lookup that [CheckProofOfStake] makes before the kernel
    check rejects on failure, once, with DoS 100 and with both output
    references untouched: a second transaction that is not a coinstake,
    a missing transaction index, a block file that does not open, a
    read that throws, a missing coin, an immature coin, and a missing
    ancestor at the coin's height, tested in this order. *)
Theorem CheckProofOfStake_lookup_failures
    (blockTreeDB : gmap uint256 CDiskTxPos) (pindexPrev : option CBlockIndex)
    (block : CBlock) (hashProof0 targetProof0 : uint256)
    (mapBlockIndex : gmap uint256 CBlockIndex) (view : gmap (uint256 * Z) Coin)
    (tx : CTransaction) (w : World) :
  vtx block !! 1%nat = Some tx ->
  let rejects :=
    exists msg,
      CheckProofOfStake blockTreeDB pindexPrev block hashProof0 targetProof0
        mapBlockIndex view w
      = Done (false, hashProof0, targetProof0) (rejected msg w) in
  (IsCoinStake tx = false -> rejects)
  /\ forall txin,
       IsCoinStake tx = true -> vin tx !! 0%nat = Some txin ->
       (blockTreeDB !! hash (prevout txin) = None -> rejects)
       /\ forall txindex,
            blockTreeDB !! hash (prevout txin) = Some txindex ->
            (OpenBlockFile txindex = None -> rejects)
            /\ (OpenBlockFile txindex = Some None -> rejects)
            /\ forall rec,
                 OpenBlockFile txindex = Some (Some rec) ->
                 (view !! (hash (prevout txin), n (prevout txin)) = None -> rejects)
                 /\ forall coinPrev prev,
                      view !! (hash (prevout txin), n (prevout txin)) = Some coinPrev ->
                      pindexPrev = Some prev ->
                      (nHeight prev + 1 - coin_nHeight coinPrev < COINBASE_MATURITY
                       -> rejects)
                      /\ (COINBASE_MATURITY <= nHeight prev + 1 - coin_nHeight coinPrev
                          -> GetAncestor prev (coin_nHeight coinPrev) = None -> rejects).
Proof.
  intros Htx rejects. subst rejects.
  assert (Hstart : forall k : CTransaction -> M (bool * uint256 * uint256),
            bind (vector_at (vtx block) 1) k w = k tx w).
  { intros k. unfold bind, vector_at. change (Z.to_nat 1) with 1%nat.
    now rewrite Htx. }
  split.
  { intros Hcs. unfold CheckProofOfStake. rewrite Hstart, Hcs. eexists. reflexivity. }
  intros txin Hcs Hin.
  assert (Hinput : forall k : CTxIn -> M (bool * uint256 * uint256),
            bind (vector_at (vin tx) 0) k w = k txin w).
  { intros k. unfold bind, vector_at. change (Z.to_nat 0) with 0%nat.
    now rewrite Hin. }
  split.
  { intros Hidx. unfold CheckProofOfStake. rewrite Hstart, Hcs. cbn [negb].
    rewrite Hinput, Hidx. eexists. reflexivity. }
  intros txindex Hidx.
  split.
  { intros Hfile. unfold CheckProofOfStake. rewrite Hstart, Hcs. cbn [negb].
    rewrite Hinput, Hidx, Hfile. eexists. reflexivity. }
  split.
  { intros Hfile. unfold CheckProofOfStake. rewrite Hstart, Hcs. cbn [negb].
    rewrite Hinput, Hidx, Hfile. eexists. reflexivity. }
  intros rec Hfile.
  split.
  { intros Hcoin. unfold CheckProofOfStake. rewrite Hstart, Hcs. cbn [negb].
    rewrite Hinput, Hidx, Hfile. cbv zeta. rewrite Hcoin. eexists. reflexivity. }
  intros coinPrev prev Hcoin ->.
  split.
  - intros Himm. unfold CheckProofOfStake. rewrite Hstart, Hcs. cbn [negb].
    rewrite Hinput, Hidx, Hfile. cbv zeta. rewrite Hcoin.
    unfold bind at 1. unfold deref, ret at 1.
    destruct (Z.ltb_spec (nHeight prev + 1 - coin_nHeight coinPrev)
                         COINBASE_MATURITY) as [_|Hge]; [|lia].
    eexists. reflexivity.
  - intros Hmat Hanc. unfold CheckProofOfStake. rewrite Hstart, Hcs. cbn [negb].
    rewrite Hinput, Hidx, Hfile. cbv zeta. rewrite Hcoin.
    unfold bind at 1. unfold deref, ret at 1.
    destruct (Z.ltb_spec (nHeight prev + 1 - coin_nHeight coinPrev)
                         COINBASE_MATURITY) as [Hlt|_]; [lia|].
    rewrite Hanc. eexists. reflexivity.
Qed.

(** X10. A coinstake whose kernel violates a time rule is scored twice:
    [CheckStakeKernelHash] rejects with DoS 100 and [CheckProofOfStake],
    seeing the false answer, rejects again, so the call ends with the
    DoS score raised by 200 and two error lines, the outputs untouched. *)
Theorem CheckProofOfStake_kernel_reject_scores_twice
    (blockTreeDB : gmap uint256 CDiskTxPos) (prev : CBlockIndex) (block : CBlock)
    (hashProof0 targetProof0 : uint256)
    (mapBlockIndex : gmap uint256 CBlockIndex) (view : gmap (uint256 * Z) Coin)
    (tx : CTransaction) (txin : CTxIn) (txindex : CDiskTxPos) (rec : DiskRecord)
    (coinPrev : Coin) (blockAtCoin blockFrom : CBlockIndex) (w : World) :
  vtx block !! 1%nat = Some tx ->
  IsCoinStake tx = true ->
  vin tx !! 0%nat = Some txin ->
  blockTreeDB !! hash (prevout txin) = Some txindex ->
  OpenBlockFile txindex = Some (Some rec) ->
  mapBlockIndex !! GetHash (headerPrev rec) = Some blockFrom ->
  view !! (hash (prevout txin), n (prevout txin)) = Some coinPrev ->
  COINBASE_MATURITY <= nHeight prev + 1 - coin_nHeight coinPrev ->
  GetAncestor prev (coin_nHeight coinPrev) = Some blockAtCoin ->
  tx_nTime tx < tx_nTime (txPrev0 rec)
  \/ tx_nTime tx < (nTime blockFrom + nStakeMinAge) mod 2 ^ 32 ->
  exists msg1 msg2 w',
    CheckProofOfStake blockTreeDB (Some prev) block hashProof0 targetProof0
      mapBlockIndex view w
    = Done (false, hashProof0, targetProof0) w'
    /\ w' = rejected msg2 (rejected msg1 w)
    /\ nDoS (state w') = nDoS (state w) + 200
    /\ length (errlog w') = S (S (length (errlog w))).
Proof.
  intros Htx Hcs Hin Hidx Hfile Hfrom Hcoin Hmature Hanc Hviol.
  unfold CheckProofOfStake, vector_at. cbv zeta.
  change (Z.to_nat 1) with 1%nat. change (Z.to_nat 0) with 0%nat.
  rewrite Htx. unfold bind at 1. unfold ret at 1.
  rewrite Hcs. cbn [negb].
  rewrite Hin. unfold bind at 1. unfold ret at 1.
  rewrite Hidx, Hfile, Hfrom, Hcoin.
  unfold bind at 1. unfold deref at 1. unfold ret at 1.
  destruct (Z.ltb_spec (nHeight prev + 1 - coin_nHeight coinPrev)
                       COINBASE_MATURITY) as [Hlt|_]; [lia|].
  rewrite Hanc. unfold bind at 1. unfold CheckStakeKernelHash.
  assert (Hend : forall msg1 msg2 w',
            w' = rejected msg2 (rejected msg1 w) ->
            nDoS (state w') = nDoS (state w) + 200
            /\ length (errlog w') = S (S (length (errlog w)))).
  { intros msg1 msg2 w' ->. cbn. rewrite !length_app. cbn. lia. }
  destruct (Z.ltb_spec (tx_nTime tx) (tx_nTime (txPrev0 rec))) as [Hlt|Hge].
  - eexists _, _, _. split; [reflexivity|]. split; [reflexivity|]. now eapply Hend.
  - destruct Hviol as [Hlt|Hage]; [lia|].
    unfold bind at 1. unfold deref, ret at 1. fold (u32 (nTime blockFrom + nStakeMinAge)) in Hage.
    destruct (Z.ltb_spec (tx_nTime tx) (u32 (nTime blockFrom + nStakeMinAge))) as [_|Hle];
      [|lia].
    eexists _, _, _. split; [reflexivity|]. split; [reflexivity|]. now eapply Hend.
Qed.

(** ** Selection of a block, continued *)

Section SelectionRounds.
Variables (mapBlockIndex mapSelectedBlocks : gmap uint256 CBlockIndex).
Variables (nSelectionIntervalStop nStakeModifierPrev : Z).

Local Abbreviation loop :=
  (select_loop mapBlockIndex mapSelectedBlocks nSelectionIntervalStop nStakeModifierPrev).
Local Abbreviation sel_hash := (selection_hash nStakeModifierPrev).
Local Abbreviation indexed := (indexed mapBlockIndex).
Local Abbreviation within_stop := (within_stop mapBlockIndex nSelectionIntervalStop).
Local Abbreviation unselected := (unselected mapBlockIndex mapSelectedBlocks).

Lemma select_loop_selects (Q : CBlockIndex -> Prop) items :
  forall fSelected hashBest pindexSelected w,
    Forall indexed items ->
    (fSelected = true -> exists p, pindexSelected = Some p /\ Q p) ->
    (fSelected = true \/ Exists unselected items) ->
    (forall item p, item ∈ items -> mapBlockIndex !! item.2 = Some p ->
                    mapSelectedBlocks !! GetBlockHash p = None -> Q p) ->
    exists win,
      loop items fSelected hashBest pindexSelected w = Done (true, Some win) w /\ Q win.
Proof.
  induction items as [|item rest IH];
    intros fSelected hashBest pindexSelected w Hidx Hinv Hsome HQ.
  - destruct Hsome as [Hf|Hex]; [|now apply Exists_nil in Hex].
    destruct (Hinv Hf) as (p & -> & Hp). subst fSelected. now exists p.
  - apply Forall_cons in Hidx as [[q Hq] Hidx].
    rewrite select_loop_cons, Hq.
    assert (HQrest : forall it p, it ∈ rest -> mapBlockIndex !! it.2 = Some p ->
                       mapSelectedBlocks !! GetBlockHash p = None -> Q p).
    { intros it p Hit. apply HQ. now right. }
    destruct (bool_decide (is_Some (mapSelectedBlocks !! GetBlockHash q))) eqn:Hsel.
    + apply bool_decide_eq_true_1 in Hsel.
      assert (Hsome' : fSelected = true \/ Exists unselected rest).
      { destruct Hsome as [Hf|Hex]; [now left|].
        apply Exists_cons in Hex as [(p & Hp & Hfree)|Hex]; [|now right].
        rewrite Hq in Hp. injection Hp as <-. rewrite Hfree in Hsel.
        now destruct Hsel. }
      destruct fSelected; cbn [andb].
      * destruct (Hinv eq_refl) as (p & -> & Hp).
        destruct (nSelectionIntervalStop <? GetBlockTime q); [now exists p|].
        now apply IH.
      * now apply IH.
    + apply bool_decide_eq_false_1 in Hsel.
      assert (Hfree : mapSelectedBlocks !! GetBlockHash q = None).
      { destruct (mapSelectedBlocks !! GetBlockHash q); [|reflexivity].
        exfalso. apply Hsel. eauto. }
      assert (Hq' : Q q) by (apply (HQ item q); [now left | exact Hq | exact Hfree]).
      destruct fSelected; cbn [andb negb].
      * destruct (Hinv eq_refl) as (p & -> & Hp).
        destruct (nSelectionIntervalStop <? GetBlockTime q); [now exists p|].
        destruct (sel_hash q <? hashBest).
        -- apply IH; [exact Hidx | intros _; now exists q | now left | exact HQrest].
        -- apply IH; [exact Hidx | intros _; now exists p | now left | exact HQrest].
      * apply IH; [exact Hidx | intros _; now exists q | now left | exact HQrest].
Qed.

Lemma select_loop_all_selected items :
  forall hashBest pindexSelected w,
    Forall (fun item => exists p, mapBlockIndex !! item.2 = Some p
                                  /\ is_Some (mapSelectedBlocks !! GetBlockHash p)) items ->
    loop items false hashBest pindexSelected w = Done (false, pindexSelected) w.
Proof.
  induction items as [|item rest IH]; intros hashBest pindexSelected w Hall.
  - reflexivity.
  - apply Forall_cons in Hall as [(p & Hp & Hsel) Hall].
    rewrite select_loop_cons, Hp. cbn [andb].
    rewrite bool_decide_eq_true_2 by exact Hsel. now apply IH.
Qed.

Lemma select_loop_missing_index pre :
  forall fSelected hashBest pindexSelected w c post,
    Forall indexed pre -> Forall within_stop pre ->
    mapBlockIndex !! c.2 = None ->
    exists sel,
      loop (pre ++ c :: post) fSelected hashBest pindexSelected w
      = Done (false, sel)
          (logged "SelectBlockFromCandidates: failed to find block index for candidate block" w).
Proof.
  induction pre as [|a pre IH]; intros fSelected hashBest pindexSelected w c post Hidx Hpre Hc.
  - cbn [app]. rewrite select_loop_cons, Hc. eexists. reflexivity.
  - cbn [app]. apply Forall_cons in Hidx as [[q Hq] Hidx].
    apply Forall_cons in Hpre as [Ha Hpre]. pose proof (Ha q Hq) as Hqtime.
    rewrite select_loop_cons, Hq.
    destruct (Z.ltb_spec nSelectionIntervalStop (GetBlockTime q)) as [Hlt|_]; [lia|].
    rewrite andb_false_r.
    destruct (bool_decide _); [now apply IH|].
    destruct (fSelected && _); [now apply IH|].
    destruct (negb fSelected); now apply IH.
Qed.

Lemma select_loop_stops pre :
  forall fSelected hashBest pindexSelected w c post pc,
    mapBlockIndex !! c.2 = Some pc ->
    nSelectionIntervalStop < GetBlockTime pc ->
    fSelected = true \/ Exists unselected pre ->
    loop (pre ++ c :: post) fSelected hashBest pindexSelected w
    = loop pre fSelected hashBest pindexSelected w.
Proof.
  induction pre as [|a pre IH];
    intros fSelected hashBest pindexSelected w c post pc Hc Hlate Hsome.
  - destruct Hsome as [->|Hex]; [|now apply Exists_nil in Hex].
    cbn [app]. rewrite select_loop_cons, Hc.
    destruct (Z.ltb_spec nSelectionIntervalStop (GetBlockTime pc)) as [_|Hge]; [|lia].
    reflexivity.
  - cbn [app]. rewrite !select_loop_cons.
    destruct (mapBlockIndex !! a.2) as [q|] eqn:Hq; [|reflexivity].
    destruct (fSelected && (nSelectionIntervalStop <? GetBlockTime q)); [reflexivity|].
    destruct (bool_decide (is_Some (mapSelectedBlocks !! GetBlockHash q))) eqn:Hsel.
    + apply bool_decide_eq_true_1 in Hsel.
      apply (IH _ _ _ _ _ _ pc Hc Hlate).
      destruct Hsome as [Hf|Hex]; [now left|].
      apply Exists_cons in Hex as [(p & Hp & Hfree)|Hex]; [|now right].
      rewrite Hq in Hp. injection Hp as <-. rewrite Hfree in Hsel. now destruct Hsel.
    + destruct fSelected; cbn [andb negb].
      * destruct (sel_hash q <? hashBest); apply (IH _ _ _ _ _ _ pc Hc Hlate); now left.
      * apply (IH _ _ _ _ _ _ pc Hc Hlate). now left.
Qed.

End SelectionRounds.

(** X11. Whenever every candidate is in the block index and at least
    one of them has not been selected before,
    [SelectBlockFromCandidates] answers true with a non-null
    [*pindexSelected] that is the index entry of one of the candidates
    and is not among the blocks already selected; it logs nothing. *)
Theorem SelectBlockFromCandidates_selects_unselected
    (mapBlockIndex mapSelectedBlocks : gmap uint256 CBlockIndex)
    (vSortedByTimestamp : list (Z * uint256))
    (nSelectionIntervalStop nStakeModifierPrev : Z) (w : World) :
  Forall (indexed mapBlockIndex) vSortedByTimestamp ->
  Exists (unselected mapBlockIndex mapSelectedBlocks) vSortedByTimestamp ->
  exists win,
    SelectBlockFromCandidates mapBlockIndex vSortedByTimestamp mapSelectedBlocks
      nSelectionIntervalStop nStakeModifierPrev w
    = Done (true, Some win) w
    /\ mapSelectedBlocks !! GetBlockHash win = None
    /\ exists item, item ∈ vSortedByTimestamp /\ mapBlockIndex !! item.2 = Some win.
Proof.
  intros Hidx Hex. unfold SelectBlockFromCandidates.
  apply (select_loop_selects mapBlockIndex mapSelectedBlocks nSelectionIntervalStop
           nStakeModifierPrev
           (fun win => mapSelectedBlocks !! GetBlockHash win = None
                       /\ exists item, item ∈ vSortedByTimestamp
                                       /\ mapBlockIndex !! item.2 = Some win)).
  - exact Hidx.
  - discriminate.
  - now right.
  - intros item p Hin Hp Hfree. split; [exact Hfree|]. now exists item.
Qed.

(** X12. In a round whose candidates are all indexed and none later
    than the stop, the selected block has the smallest selection hash
    among the candidates not selected before: no eligible candidate
    compares below the winner. *)
Theorem SelectBlockFromCandidates_minimum
    (mapBlockIndex mapSelectedBlocks : gmap uint256 CBlockIndex)
    (vSortedByTimestamp : list (Z * uint256))
    (nSelectionIntervalStop nStakeModifierPrev : Z) (w : World) :
  Forall (indexed mapBlockIndex) vSortedByTimestamp ->
  Forall (within_stop mapBlockIndex nSelectionIntervalStop) vSortedByTimestamp ->
  Exists (unselected mapBlockIndex mapSelectedBlocks) vSortedByTimestamp ->
  exists win,
    SelectBlockFromCandidates mapBlockIndex vSortedByTimestamp mapSelectedBlocks
      nSelectionIntervalStop nStakeModifierPrev w
    = Done (true, Some win) w
    /\ forall item p,
         item ∈ vSortedByTimestamp -> mapBlockIndex !! item.2 = Some p ->
         mapSelectedBlocks !! GetBlockHash p = None ->
         selection_hash nStakeModifierPrev win <= selection_hash nStakeModifierPrev p.
Proof.
  intros Hidx Hstop Hex.
  destruct (select_loop_selects mapBlockIndex mapSelectedBlocks nSelectionIntervalStop
              nStakeModifierPrev (fun _ => True) vSortedByTimestamp false 0 None w
              Hidx ltac:(discriminate) (or_intror Hex) (fun _ _ _ _ _ => I))
    as (win & Hrun & _).
  exists win. split; [exact Hrun|].
  intros item p Hin Hp Hfree.
  apply list_elem_of_split in Hin as (pre & post & Hsplit).
  assert (Hpre : Forall (within_stop mapBlockIndex nSelectionIntervalStop) pre).
  { rewrite Hsplit in Hstop. now apply Forall_app in Hstop as [? _]. }
  assert (Htime : GetBlockTime p <= nSelectionIntervalStop).
  { rewrite Hsplit in Hstop. apply Forall_app in Hstop as [_ Hstop].
    apply Forall_cons in Hstop as [Hitem _]. now apply Hitem. }
  rewrite Hsplit in Hidx.
  destruct (select_loop_examines mapBlockIndex mapSelectedBlocks nSelectionIntervalStop
              nStakeModifierPrev pre false 0 None w item post p
              Hidx Hpre Hp Hfree Htime ltac:(discriminate))
    as (win' & Hrun' & Hle & _).
  rewrite <- Hsplit in Hrun'. unfold SelectBlockFromCandidates in Hrun.
  rewrite Hrun in Hrun'. injection Hrun' as <-. exact Hle.
Qed.

(** X13. A candidate missing from the block index makes the scan fail:
    when the candidates before it are indexed and none of them is later
    than the stop, [SelectBlockFromCandidates] logs the error and
    answers false, whatever block the scan had chosen so far. *)
Theorem SelectBlockFromCandidates_missing_index
    (mapBlockIndex mapSelectedBlocks : gmap uint256 CBlockIndex)
    (pre post : list (Z * uint256)) (c : Z * uint256)
    (nSelectionIntervalStop nStakeModifierPrev : Z) (w : World) :
  Forall (indexed mapBlockIndex) pre ->
  Forall (within_stop mapBlockIndex nSelectionIntervalStop) pre ->
  mapBlockIndex !! c.2 = None ->
  exists sel,
    SelectBlockFromCandidates mapBlockIndex (pre ++ c :: post) mapSelectedBlocks
      nSelectionIntervalStop nStakeModifierPrev w
    = Done (false, sel)
        (logged "SelectBlockFromCandidates: failed to find block index for candidate block" w).
Proof.
  intros Hidx Hpre Hc. unfold SelectBlockFromCandidates.
  now apply select_loop_missing_index.
Qed.

(** X14. Once a block has been chosen, the scan ends at the first
    candidate later than the stop: that candidate and everything listed
    after it, indexed or not, have no influence on the result. *)
Theorem SelectBlockFromCandidates_stops_at_late_candidate
    (mapBlockIndex mapSelectedBlocks : gmap uint256 CBlockIndex)
    (pre post : list (Z * uint256)) (c : Z * uint256) (pc : CBlockIndex)
    (nSelectionIntervalStop nStakeModifierPrev : Z) (w : World) :
  mapBlockIndex !! c.2 = Some pc ->
  nSelectionIntervalStop < GetBlockTime pc ->
  Exists (unselected mapBlockIndex mapSelectedBlocks) pre ->
  SelectBlockFromCandidates mapBlockIndex (pre ++ c :: post) mapSelectedBlocks
    nSelectionIntervalStop nStakeModifierPrev w
  = SelectBlockFromCandidates mapBlockIndex pre mapSelectedBlocks
      nSelectionIntervalStop nStakeModifierPrev w.
Proof.
  intros Hc Hlate Hex. unfold SelectBlockFromCandidates.
  apply (select_loop_stops _ _ _ _ pre false 0 None w c post pc Hc Hlate). now right.
Qed.

(** X15. When every candidate has been selected before (in particular
    when there is no candidate), [SelectBlockFromCandidates] answers
    false with a null [*pindexSelected] and logs nothing. *)
Theorem SelectBlockFromCandidates_nothing_left
    (mapBlockIndex mapSelectedBlocks : gmap uint256 CBlockIndex)
    (vSortedByTimestamp : list (Z * uint256))
    (nSelectionIntervalStop nStakeModifierPrev : Z) (w : World) :
  Forall (fun item => exists p, mapBlockIndex !! item.2 = Some p
                                /\ is_Some (mapSelectedBlocks !! GetBlockHash p))
         vSortedByTimestamp ->
  SelectBlockFromCandidates mapBlockIndex vSortedByTimestamp mapSelectedBlocks
    nSelectionIntervalStop nStakeModifierPrev w
  = Done (false, None) w.
Proof.
  intros Hall. unfold SelectBlockFromCandidates. now apply select_loop_all_selected.
Qed.

(** ** The stake modifier, continued *)

Lemma lor_below (a b k : Z) :
  0 <= a < 2 ^ k -> 0 <= b < 2 ^ k -> 0 <= Z.lor a b < 2 ^ k.
Proof.
  intros Ha Hb.
  assert (Hk : 0 <= k).
  { destruct (Z.lt_ge_cases k 0) as [Hneg|]; [|assumption].
    rewrite Z.pow_neg_r in Ha by exact Hneg. lia. }
  assert (Hnn : 0 <= Z.lor a b) by (apply Z.lor_nonneg; lia).
  split; [exact Hnn|].
  destruct (Z.eq_dec (Z.lor a b) 0) as [->|Hne].
  { apply Z.pow_pos_nonneg; lia. }
  apply Z.log2_lt_pow2; [lia|].
  rewrite Z.log2_lor by lia.
  assert (Hlog : forall x, 0 <= x < 2 ^ k -> 0 < k -> Z.log2 x < k).
  { intros x Hx Hkpos. destruct (Z.eq_dec x 0) as [->|Hx0]; [exact Hkpos|].
    apply Z.log2_lt_pow2; lia. }
  destruct (Z.eq_dec k 0) as [->|Hk0].
  { exfalso. apply Hne. assert (a = 0) by (simpl in Ha; lia).
    assert (b = 0) by (simpl in Hb; lia). subst. reflexivity. }
  apply Z.max_lub_lt; apply Hlog; lia.
Qed.

Lemma pigeonhole (X : gset uint256) (l : list uint256) :
  NoDup l -> (size X < length l)%nat -> Exists (fun h => h ∉ X) l.
Proof.
  intros Hnd Hsize.
  destruct (decide (Forall (fun h => h ∈ X) l)) as [Hall|Hnot].
  - exfalso.
    assert (Hsub : (list_to_set l : gset uint256) ⊆ X).
    { intros h Hh. apply elem_of_list_to_set in Hh.
      rewrite Forall_forall in Hall. now apply Hall. }
    apply subseteq_size in Hsub. rewrite size_list_to_set in Hsub by exact Hnd. lia.
  - now apply not_Forall_Exists in Hnot; [|apply _].
Qed.

Lemma selection_rounds_succeed
    (mapBlockIndex : gmap uint256 CBlockIndex) (vs : list (Z * uint256)) (M0 : Z) :
  NoDup (vs.*2) ->
  Forall (fun item => exists p, mapBlockIndex !! item.2 = Some p
                                /\ GetBlockHash p = item.2) vs ->
  forall count nRound stop (selected : gmap uint256 CBlockIndex) acc w,
    (size (dom selected) + count <= length vs)%nat ->
    0 <= acc < 2 ^ 64 ->
    exists Mnew,
      selection_rounds mapBlockIndex vs M0 count nRound stop selected acc w
      = Done (Some Mnew) w
      /\ 0 <= Mnew < 2 ^ 64.
Proof.
  intros Hnd Hcons.
  assert (Hidx : Forall (indexed mapBlockIndex) vs).
  { eapply Forall_impl; [exact Hcons|]. intros item (p & Hp & _). now exists p. }
  induction count as [|k IH]; intros nRound stop selected acc w Hsize Hacc.
  - exists acc. split; [reflexivity | exact Hacc].
  - assert (Hex : Exists (unselected mapBlockIndex selected) vs).
    { assert (Hfree : Exists (fun h => h ∉ dom selected) (vs.*2)).
      { apply pigeonhole; [exact Hnd|]. rewrite length_fmap. lia. }
      apply Exists_exists in Hfree as (h & Hh & Hout).
      apply list_elem_of_fmap in Hh as (item & -> & Hitem).
      apply Exists_exists. exists item. split; [exact Hitem|].
      rewrite Forall_forall in Hcons. destruct (Hcons item Hitem) as (p & Hp & Hhash).
      exists p. split; [exact Hp|]. rewrite Hhash. now apply not_elem_of_dom. }
    destruct (select_loop_selects mapBlockIndex selected
                (stop + GetStakeModifierSelectionIntervalSection nRound) M0
                (fun win => selected !! GetBlockHash win = None)
                vs false 0 None w Hidx ltac:(discriminate) (or_intror Hex)
                (fun _ _ _ _ Hfree => Hfree))
      as (win & Hrun & Hfree).
    cbn [selection_rounds]. unfold bind at 1. unfold SelectBlockFromCandidates.
    rewrite Hrun. cbn [fst snd negb]. unfold bind at 1. unfold deref, ret at 1.
    unfold map_insert. rewrite Hfree.
    apply IH.
    + rewrite dom_insert_L, size_union, size_singleton; [lia|].
      apply disjoint_singleton_l. now apply not_elem_of_dom.
    + apply lor_below; [exact Hacc|]. unfold u64. apply Z.mod_pos_bound. lia.
Qed.

Lemma selection_rounds_width
    (mapBlockIndex : gmap uint256 CBlockIndex) (vs : list (Z * uint256)) (M0 : Z) :
  (forall p, 0 <= GetStakeEntropyBit p <= 1) ->
  forall count nRound stop (selected : gmap uint256 CBlockIndex) acc w Mnew w',
    0 <= nRound -> 0 <= acc < 2 ^ nRound ->
    selection_rounds mapBlockIndex vs M0 count nRound stop selected acc w
    = Done (Some Mnew) w' ->
    0 <= Mnew < 2 ^ (nRound + Z.of_nat count).
Proof.
  intros Hbit.
  induction count as [|k IH]; intros nRound stop selected acc w Mnew w' Hround Hacc Hrun.
  - injection Hrun as <- _. now rewrite Z.add_0_r.
  - cbn [selection_rounds] in Hrun. unfold bind at 1 in Hrun.
    destruct (SelectBlockFromCandidates _ _ _ _ _ w) as [r w1|]; [|discriminate].
    destruct (negb r.1); [discriminate|].
    unfold bind at 1 in Hrun. destruct r.2 as [pindex|]; [|discriminate].
    cbn [deref] in Hrun. unfold ret at 1 in Hrun.
    apply IH in Hrun.
    + replace (nRound + Z.of_nat (S k)) with (nRound + 1 + Z.of_nat k) by lia. exact Hrun.
    + lia.
    + pose proof (Hbit pindex) as Hb.
      assert (Hpow : 2 ^ (nRound + 1) = 2 * 2 ^ nRound) by (rewrite Z.pow_add_r; lia).
      assert (Hpos : 0 < 2 ^ nRound) by (apply Z.pow_pos_nonneg; lia).
      apply lor_below; [lia|].
      unfold u64. rewrite (Z.mod_small (GetStakeEntropyBit pindex) (2 ^ 64)) by lia.
      rewrite Z.shiftl_mul_pow2 by lia.
      split; [apply Z.mod_pos_bound; lia|].
      apply Z.le_lt_trans with (GetStakeEntropyBit pindex * 2 ^ nRound).
      * apply Z.mod_le; [nia | lia].
      * nia.
Qed.

(** X16. [ComputeNextStakeModifier] generates a new modifier whenever a
    new interval has begun and the candidates are sound: if the last
    generated modifier lies in an earlier [nModifierInterval] bucket
    than [prev], the collected candidates have pairwise distinct
    hashes, each is indexed under its own hash, and [std::sort] returns
    a permutation, then the call answers true with
    [fGeneratedStakeModifier] set and a modifier in [[0, 2^64)]; no
    round fails, no null pointer is dereferenced, no error line is
    written.
    When the entropy bit of every block is 0 or 1, only the low
    [min(64, number of candidates)] bits of the modifier can be set. *)
Theorem ComputeNextStakeModifier_generates
    (mapBlockIndex : gmap uint256 CBlockIndex) (prev g : CBlockIndex)
    (l1 l2 : list CBlockIndex) (w : World) :
  (forall l, std_sort l ≡ₚ l) ->
  ancestors prev = l1 ++ g :: l2 ->
  Forall (fun b => GeneratedStakeModifier b = false) l1 ->
  GeneratedStakeModifier g = true ->
  GetBlockTime g ÷ nModifierInterval < GetBlockTime prev ÷ nModifierInterval ->
  let candidates := collect_candidates (selection_interval_start prev) prev in
  NoDup (candidates.*2) ->
  Forall (fun item => exists p, mapBlockIndex !! item.2 = Some p
                                /\ GetBlockHash p = item.2) candidates ->
  exists nStakeModifierNew,
    ComputeNextStakeModifier mapBlockIndex (Some prev) w
    = Done (true, nStakeModifierNew, true) w
    /\ 0 <= nStakeModifierNew < 2 ^ 64
    /\ ((forall p, 0 <= GetStakeEntropyBit p <= 1) ->
        nStakeModifierNew < 2 ^ Z.min 64 (Z.of_nat (length candidates))).
Proof.
  intros Hperm Hanc Hno Hgen Hbucket candidates Hnd Hcons.
  pose proof (last_modifier_block_first_generated l1 prev g l2 Hanc Hno Hgen) as Hlast.
  unfold ComputeNextStakeModifier, GetLastStakeModifier.
  rewrite Hlast, Hgen. cbn [negb]. unfold bind at 1. unfold ret at 1.
  destruct (Z.leb_spec (GetBlockTime prev ÷ nModifierInterval)
                       (GetBlockTime g ÷ nModifierInterval)) as [Hle|_]; [lia|].
  cbv zeta. fold candidates.
  set (vs := std_sort (rev candidates)).
  assert (Hvs : vs ≡ₚ candidates).
  { unfold vs. now rewrite Hperm, <- Permutation_rev. }
  destruct (selection_rounds_succeed mapBlockIndex vs (nStakeModifier g))
    with (count := Z.to_nat (Z.min 64 (Z.of_nat (length vs)))) (nRound := 0)
         (stop := selection_interval_start prev) (selected := (∅ : gmap uint256 CBlockIndex))
         (acc := 0) (w := w)
    as (Mnew & Hrun & Hrange).
  - now rewrite Hvs.
  - now rewrite Hvs.
  - rewrite dom_empty_L, size_empty. lia.
  - lia.
  - exists Mnew. unfold select_from_sorted, bind. rewrite Hrun.
    split; [reflexivity|]. split; [exact Hrange|].
    intros Hbit.
    apply (selection_rounds_width mapBlockIndex vs (nStakeModifier g) Hbit) in Hrun;
      [|lia|simpl; lia].
    rewrite Z2Nat.id in Hrun by lia.
    rewrite <- (Permutation_length Hvs). apply Hrun.
Qed.

Lemma last_modifier_block_in_ancestors (p : CBlockIndex) :
  In (last_modifier_block p) (ancestors p).
Proof.
  induction p as [p IH] using pprev_ind.
  rewrite last_modifier_block_unfold, ancestors_unfold.
  destruct (pprev p) as [q|]; [|now left].
  destruct (negb (GeneratedStakeModifier p)); [|now left].
  right. now apply IH.
Qed.

(** X17. When no block on the walk back from [prev], down to the block
    without predecessor, carries a generated modifier,
    [ComputeNextStakeModifier] fails: it answers false with modifier 0
    and [fGeneratedStakeModifier] false, and logs two errors, the one
    of [GetLastStakeModifier] first. *)
Theorem ComputeNextStakeModifier_no_generation
    (mapBlockIndex : gmap uint256 CBlockIndex) (prev : CBlockIndex) (w : World) :
  Forall (fun b => GeneratedStakeModifier b = false) (ancestors prev) ->
  ComputeNextStakeModifier mapBlockIndex (Some prev) w
  = Done (false, 0, false)
      (logged "ComputeNextStakeModifier: unable to get last modifier"
         (logged "GetLastStakeModifier: no generation at genesis block" w)).
Proof.
  intros Hno. rewrite Forall_forall in Hno.
  pose proof (Hno _ (proj2 (list_elem_of_In _ _) (last_modifier_block_in_ancestors prev)))
    as Hlast.
  unfold ComputeNextStakeModifier, GetLastStakeModifier. rewrite Hlast. reflexivity.
Qed.

(** X18. The candidates of a modifier computation are an unbroken run
    of ancestors: the pairs (time, hash) of the first [k] blocks on the
    walk back from [pindex], all of time at least
    [nSelectionIntervalStart], where the block after them, if any, is
    earlier than the start; ancestors behind that block are left out
    even when their own time is not earlier. With the start that
    [ComputeNextStakeModifier] derives from a [prev] of non-negative
    time, [prev] itself is always the first candidate. *)
Theorem collect_candidates_prefix (nSelectionIntervalStart : Z) (pindex : CBlockIndex) :
  (exists k,
     collect_candidates nSelectionIntervalStart pindex
     = candidate_of <$> take k (ancestors pindex)
     /\ Forall (fun b => nSelectionIntervalStart <= GetBlockTime b) (take k (ancestors pindex))
     /\ forall b, ancestors pindex !! k = Some b -> GetBlockTime b < nSelectionIntervalStart)
  /\ (0 <= GetBlockTime pindex ->
      exists rest,
        collect_candidates (selection_interval_start pindex) pindex
        = candidate_of pindex :: rest).
Proof.
  split.
  - induction pindex as [p IH] using pprev_ind.
    rewrite collect_candidates_unfold, ancestors_unfold.
    destruct (Z.leb_spec nSelectionIntervalStart (GetBlockTime p)) as [Hin|Hout].
    + destruct (pprev p) as [q|].
      * destruct (IH q eq_refl) as (k & Heq & Hall & Hnext).
        exists (S k). cbn [take fmap list_fmap]. rewrite Heq.
        split; [reflexivity|]. split; [now constructor | exact Hnext].
      * exists 1%nat. cbn. split; [reflexivity|]. split; [now repeat constructor|].
        intros b Hb. discriminate.
    + exists 0%nat. cbn. split; [reflexivity|]. split; [constructor|].
      intros b Hb. injection Hb as <-. exact Hout.
  - intros Htime. rewrite collect_candidates_unfold.
    assert (Hstart : selection_interval_start pindex <= GetBlockTime pindex).
    { unfold selection_interval_start. rewrite selection_interval_value.
      pose proof (Z.mul_quot_le (GetBlockTime pindex) nModifierInterval Htime
                    ltac:(discriminate)).
      lia. }
    destruct (Z.leb_spec (selection_interval_start pindex) (GetBlockTime pindex))
      as [_|Hlt]; [|lia].
    eexists. reflexivity.
Qed.

(** X19. A kernel modifier that is merely not yet available is a
    rejection for [CheckProofOfStake]: when every lookup succeeds and
    the time rules hold but [GetKernelStakeModifier] fails, the call
    answers false with the DoS score raised by 100 and the state marked
    invalid, with the target output written and the hash output
    untouched. *)
Theorem CheckProofOfStake_modifier_unavailable_rejects
    (blockTreeDB : gmap uint256 CDiskTxPos) (prev : CBlockIndex) (block : CBlock)
    (hashProof0 targetProof0 : uint256)
    (mapBlockIndex : gmap uint256 CBlockIndex) (view : gmap (uint256 * Z) Coin)
    (tx : CTransaction) (txin : CTxIn) (txindex : CDiskTxPos) (rec : DiskRecord)
    (coinPrev : Coin) (blockAtCoin blockFrom : CBlockIndex) (out : CTxOut)
    (r : Z * Z * Z) (w w1 : World) :
  vtx block !! 1%nat = Some tx ->
  IsCoinStake tx = true ->
  vin tx !! 0%nat = Some txin ->
  blockTreeDB !! hash (prevout txin) = Some txindex ->
  OpenBlockFile txindex = Some (Some rec) ->
  mapBlockIndex !! GetHash (headerPrev rec) = Some blockFrom ->
  view !! (hash (prevout txin), n (prevout txin)) = Some coinPrev ->
  COINBASE_MATURITY <= nHeight prev + 1 - coin_nHeight coinPrev ->
  GetAncestor prev (coin_nHeight coinPrev) = Some blockAtCoin ->
  0 <= nTime blockFrom -> tx_nTime tx < 2 ^ 32 ->
  tx_nTime (txPrev0 rec) <= tx_nTime tx ->
  nTime blockFrom + nStakeMinAge <= tx_nTime tx ->
  vout (txPrev0 rec) !! Z.to_nat (n (prevout txin)) = Some out ->
  GetKernelStakeModifier blockFrom w = Done (false, r) w1 ->
  exists msg,
    CheckProofOfStake blockTreeDB (Some prev) block hashProof0 targetProof0
      mapBlockIndex view w
    = Done (false, hashProof0,
            ArithToUint256
              (mul (coin_day_weight (nValue out) (tx_nTime (txPrev0 rec)) (tx_nTime tx))
                   (SetCompact (nBits block))))
        (rejected msg w1)
    /\ nDoS (state (rejected msg w1)) = nDoS (state w) + 100.
Proof.
  intros Htx Hcs Hin Hidx Hfile Hfrom Hcoin Hmature Hanc Hpos Hu32 Hprev Hage Hout Hmod.
  pose proof (CheckStakeKernelHash_without_modifier (nBits block) blockFrom
                (txPrev0 rec) (u32 (nTxOffset txindex + 80)) (prevout txin) (tx_nTime tx)
                hashProof0 targetProof0 out r w w1 Hpos Hu32 Hprev Hage Hout Hmod)
    as Hkernel.
  assert (Hstate : state w1 = state w).
  { destruct (GetKernelStakeModifier_frame blockFrom w) as (r0 & w0 & Hrun & Hst & _).
    rewrite Hrun in Hmod. injection Hmod as _ <-. exact Hst. }
  unfold CheckProofOfStake, vector_at. cbv zeta.
  change (Z.to_nat 1) with 1%nat. change (Z.to_nat 0) with 0%nat.
  rewrite Htx. unfold bind at 1. unfold ret at 1.
  rewrite Hcs. cbn [negb].
  rewrite Hin. unfold bind at 1. unfold ret at 1.
  rewrite Hidx, Hfile, Hfrom, Hcoin.
  unfold bind at 1. unfold deref at 1. unfold ret at 1.
  destruct (Z.ltb_spec (nHeight prev + 1 - coin_nHeight coinPrev)
                       COINBASE_MATURITY) as [Hlt|_]; [lia|].
  rewrite Hanc. unfold bind at 1. rewrite Hkernel. cbn [fst snd negb].
  eexists. split; [reflexivity|]. cbn. now rewrite Hstate.
Qed.

End Further.

(** * The properties on the concrete node *)

Import Sample.

(** Scenario 3 of the specification, by [CheckStakeKernelHash_rejects]:
    a spend one second short of the minimum age is rejected for that
    reason with DoS 100, no hash computed. *)
Lemma CheckStakeKernelHash_rejects_young_coin :
  exists msg,
    CheckStakeKernelHash easy_bits (Some young_from) disk_tx 161 stake_outpoint
      young_time_tx [] [] (world0 0)
    = Done (false, [], []) (rejected msg (world0 0))
    /\ (tx_nTime disk_tx <= young_time_tx ->
        msg = "CheckStakeKernelHash() : min age violation"%string).
Proof.
  apply (CheckStakeKernelHash_rejects easy_bits young_from disk_tx 161 stake_outpoint
           young_time_tx [] [] (world0 0)).
  right. vm_compute. reflexivity.
Defined.

(** C8. The minimum-age rule is missed where the [unsigned int] sum
    [nTimeBlockFrom + nStakeMinAge] overflows: for a block in the last
    day that a 32-bit timestamp can express,
    [block_from.time + nStakeMinAge] exceeds [time_tx], so the coin,
    spent 100 seconds after its block, must be rejected with DoS 100;
    the source computes the sum modulo 2^32, finds 19104, and does not
    reject: the call answers true and the validation state stays
    valid. *)
Lemma CheckStakeKernelHash_min_age_wraps :
  late_time_tx >= tx_nTime late_tx
  /\ nTime late_from + nStakeMinAge > late_time_tx
  /\ (nTime late_from + nStakeMinAge) mod 2 ^ 32 = 19104
  /\ exists hashProof targetProof,
       CheckStakeKernelHash easy_bits (Some late_from) late_tx 161 stake_outpoint
         late_time_tx [] [] (world0 late_time_tx)
       = Done (true, hashProof, targetProof) (world0 late_time_tx)
       /\ invalid (state (world0 late_time_tx)) = false.
Proof.
  split; [vm_compute; discriminate|].
  split; [vm_compute; reflexivity|].
  split; [vm_compute; reflexivity|].
  exists (Hash (kernel_stream 0xabcdef 4294900000 161 4294900000 1 late_time_tx)).
  exists (ArithToUint256
            (mul (coin_day_weight (5000 * COIN) 4294900000 late_time_tx)
                 (SetCompact easy_bits))).
  split; vm_compute; reflexivity.
Qed.

(** [CheckStakeKernelHash_accepts_iff] on a coin eleven days old. *)
Lemma CheckStakeKernelHash_accepts_ripe_coin :
  let hash_proof :=
    Hash (le64 0xabcdef ++ le32 1000000 ++ le32 161 ++ le32 1000000 ++ le32 1
            ++ le32 ripe_time_tx) in
  let target_proof :=
    (coin_day_weight (5000 * COIN) 1000000 ripe_time_tx * SetCompact easy_bits)
      mod 2 ^ 256 in
  exists ok,
    CheckStakeKernelHash easy_bits (Some ripe_from) disk_tx 161 stake_outpoint
      ripe_time_tx [] [] (world0 ripe_time_tx)
    = Done (ok, hash_proof, ArithToUint256 target_proof) (world0 ripe_time_tx)
    /\ (ok = true <-> UintToArith256 hash_proof <= target_proof)
    /\ (UintToArith256 hash_proof = target_proof -> ok = true).
Proof.
  apply (CheckStakeKernelHash_accepts_iff easy_bits ripe_from disk_tx 161 stake_outpoint
           ripe_time_tx [] [] {| nValue := 5000 * COIN |} 0xabcdef 40 1016900
           (world0 ripe_time_tx) (world0 ripe_time_tx)).
  - vm_compute. discriminate.
  - vm_compute. reflexivity.
  - vm_compute. discriminate.
  - vm_compute. discriminate.
  - reflexivity.
  - vm_compute. reflexivity.
Defined.

(** [ComputeNextStakeModifier_same_interval] on a block at time 1000
    whose predecessor generated a modifier at time 960: both fall in
    bucket 2 of 480 seconds. *)
Lemma ComputeNextStakeModifier_same_bucket :
  ComputeNextStakeModifier ∅ (Some bucket_prev) (world0 0)
  = Done (true, 0x1234, false) (world0 0).
Proof.
  apply (ComputeNextStakeModifier_same_interval ∅ bucket_prev bucket_modifier_block
           [bucket_prev] [] (world0 0)).
  - reflexivity.
  - repeat constructor.
  - reflexivity.
  - vm_compute. discriminate.
Defined.

(** The walk of [GetKernelStakeModifier] does not stop at a block that
    is late enough but carries no generated modifier: it returns the
    modifier of the next block that carries one. *)
Example GetKernelStakeModifier_passes_unflagged_block :
  nTime passing_from + GetStakeModifierSelectionInterval <= nTime unflagged_block
  /\ GetKernelStakeModifier passing_from (world0 0)
     = Done (true, (0x2222, 13, 1500017000)) (world0 0).
Proof. split; [vm_compute; discriminate | vm_compute; reflexivity]. Qed.

(** C2 as stated fails on the test made at a null [pnext]: the walk
    from [behind_from] ends at [behind_tip] before any block of time
    [block_from.time + S]; [block_from.time + nStakeMinAge - S] is not
    later than the clock, yet the call reports the error, because the
    source tests the time of the tip. *)
Lemma GetKernelStakeModifier_tests_tip_time :
  find (fun q => nTime behind_from + GetStakeModifierSelectionInterval <=? nTime q)
       (successors behind_from) = None
  /\ ~ (reports_error (GetKernelStakeModifier behind_from (world0 behind_now))
                      (world0 behind_now)
        <-> nTime behind_from + nStakeMinAge - GetStakeModifierSelectionInterval
            > behind_now).
Proof.
  split; [vm_compute; reflexivity|].
  intros [Hclaim _].
  assert (Hrun : reports_error (GetKernelStakeModifier behind_from (world0 behind_now))
                               (world0 behind_now)).
  { exists (false, (0, 10, 1500000000)).
    exists "GetKernelStakeModifier() : reached best block"%string.
    vm_compute. reflexivity. }
  apply Hclaim in Hrun. vm_compute in Hrun. discriminate.
Defined.

(** [CheckProofOfStake_null_block_from] on a coinstake whose previous
    transaction is read from a block whose header hash is not in the
    index: the call ends in a null dereference. *)
Lemma CheckProofOfStake_orphan_header_crashes :
  CheckProofOfStake orphan_txdb (Some orphan_prev) orphan_block [] []
    orphan_index orphan_view (world0 1950400)
  = Crash "null pointer dereference".
Proof.
  apply (CheckProofOfStake_null_block_from orphan_txdb orphan_prev orphan_block [] []
           orphan_index orphan_view coinstake {| prevout := stake_outpoint |}
           {| nFile := 0; nPos := 1234; nTxOffset := 81 |}
           {| headerPrev := le_bytes 80 1234; txPrev0 := disk_tx |}
           {| coin_nHeight := 5; coin_out := {| nValue := 5000 * COIN |} |}
           (linear_chain 5) (world0 1950400)).
  - reflexivity.
  - vm_compute. reflexivity.
  - reflexivity.
  - vm_compute. reflexivity.
  - vm_compute. reflexivity.
  - vm_compute. reflexivity.
  - vm_compute. reflexivity.
  - vm_compute. discriminate.
  - vm_compute. reflexivity.
  - vm_compute. discriminate.
Defined.

(** C6 as stated fails on a tie: with two candidates of one timestamp,
    reversing and sorting puts the older first, a stable sort of the
    list as collected puts the newer first, and the two orders select
    different blocks in round 0, hence different modifiers. *)
Lemma reverse_then_sort_tie_differs :
  let candidates := collect_candidates (selection_interval_start tie_newer) tie_newer in
  std_sort (rev candidates) <> stable_sort_by_time candidates
  /\ ComputeNextStakeModifier tie_index (Some tie_newer) (world0 0)
     = Done (true, 1, true) (world0 0)
  /\ ComputeNextStakeModifier_stable_sort tie_index (Some tie_newer) (world0 0)
     = Done (true, 2, true) (world0 0).
Proof.
  split; [intros Heq; vm_compute in Heq; discriminate|].
  split; vm_compute; reflexivity.
Defined.

(** [reverse_then_sort_distinct_timestamps] on the chain whose two
    candidates are eight minutes apart. *)
Lemma reverse_then_sort_apart_agrees :
  let candidates := collect_candidates (selection_interval_start apart_newer) apart_newer in
  std_sort (rev candidates) = stable_sort_by_time candidates
  /\ ComputeNextStakeModifier apart_index (Some apart_newer) (world0 0)
     = ComputeNextStakeModifier_stable_sort apart_index (Some apart_newer) (world0 0).
Proof.
  apply (reverse_then_sort_distinct_timestamps apart_index apart_newer (world0 0)).
  - exact stable_sort_by_time_Permutation.
  - exact stable_sort_by_time_sorted.
  - apply (bool_decide_unpack _). vm_compute. exact I.
Defined.

(** [SelectBlockFromCandidates_favours_stake] on a round of two
    candidates of one raw hash: the proof-of-stake candidate is
    selected whichever of the two is listed first. *)
Lemma SelectBlockFromCandidates_duel :
  selection_hash 0 pos_candidate = Z.shiftr 1099511627779 32
  /\ selection_hash 0 pow_candidate = 1099511627779
  /\ (exists win,
       SelectBlockFromCandidates duel_index
         ([(5000, phashBlock pow_candidate)] ++ (5060, phashBlock pos_candidate) :: [])
         ∅ 6000 0 (world0 0)
       = Done (true, Some win) (world0 0)
       /\ selection_hash 0 win < 1099511627779
       /\ win <> pow_candidate
       /\ (Forall (fun item => duel_index !! item.2 = Some pos_candidate
                               \/ duel_index !! item.2 = Some pow_candidate)
                  ([(5000, phashBlock pow_candidate)]
                     ++ (5060, phashBlock pos_candidate) :: [])
           -> win = pos_candidate))
  /\ SelectBlockFromCandidates duel_index
       [(5000, phashBlock pow_candidate); (5060, phashBlock pos_candidate)]
       ∅ 6000 0 (world0 0)
     = Done (true, Some pos_candidate) (world0 0)
  /\ SelectBlockFromCandidates duel_index
       [(5060, phashBlock pos_candidate); (5000, phashBlock pow_candidate)]
       ∅ 6000 0 (world0 0)
     = Done (true, Some pos_candidate) (world0 0).
Proof.
  unshelve epose proof
    (SelectBlockFromCandidates_favours_stake duel_index ∅ 6000 0
       [(5000, phashBlock pow_candidate)] [] (5060, phashBlock pos_candidate)
       pos_candidate pow_candidate 1099511627779 (world0 0) _ _ _ _ _ _ _ _ _ _)
    as Hduel.
  - repeat constructor; unfold indexed; apply (bool_decide_unpack _); vm_compute; exact I.
  - constructor; [|constructor].
    intros q Hq. vm_compute in Hq. injection Hq as <-. vm_compute. discriminate.
  - vm_compute. reflexivity.
  - vm_compute. reflexivity.
  - vm_compute. discriminate.
  - vm_compute. reflexivity.
  - vm_compute. reflexivity.
  - vm_compute. reflexivity.
  - vm_compute. reflexivity.
  - vm_compute. discriminate.
  - destruct Hduel as (Hpos & Hpow & Hround & Hrival).
    split; [exact Hpos|]. split; [exact Hpow|]. split; [exact Hround|].
    unshelve epose proof
      (Hrival pow_candidate (5000, phashBlock pow_candidate) _ _ _) as [Hfirst Hsecond].
    + vm_compute. reflexivity.
    + vm_compute. reflexivity.
    + vm_compute. discriminate.
    + split; [exact Hfirst | exact Hsecond].
Defined.

(** * The further properties on the concrete node *)

(** [GetStakeModifierSelectionIntervalSection_range] at section 10. *)
Lemma GetStakeModifierSelectionIntervalSection_at_10 :
  GetStakeModifierSelectionIntervalSection 10 = 30240 / (189 - 2 * 10)
  /\ 160 <= GetStakeModifierSelectionIntervalSection 10 <= 480
  /\ (0 < 10 ->
      GetStakeModifierSelectionIntervalSection (10 - 1)
      <= GetStakeModifierSelectionIntervalSection 10).
Proof. apply (GetStakeModifierSelectionIntervalSection_range 10). lia. Defined.

(** [GetKernelStakeModifier_later_block] on the chain of
    [passing_from]. *)
Lemma GetKernelStakeModifier_later_block_passing :
  world0 0 = world0 0
  /\ nTime passing_from + 16900 <= 1500017000
  /\ exists q, In q (successors passing_from)
               /\ GeneratedStakeModifier q = true
               /\ 0x2222 = nStakeModifier q
               /\ 13 = nHeight q /\ 1500017000 = nTime q.
Proof.
  apply (GetKernelStakeModifier_later_block passing_from (world0 0) (world0 0)
           0x2222 13 1500017000).
  vm_compute. reflexivity.
Defined.

(** [GetKernelStakeModifier_at_tip] on a block without successor. *)
Lemma GetKernelStakeModifier_at_behind_tip :
  exists w',
    GetKernelStakeModifier behind_tip (world0 behind_now)
    = Done (false, (0, nHeight behind_tip, nTime behind_tip)) w'
    /\ state w' = state (world0 behind_now)
    /\ (w' = world0 behind_now
        \/ w' = logged "GetKernelStakeModifier() : reached best block" (world0 behind_now)).
Proof. apply (GetKernelStakeModifier_at_tip behind_tip (world0 behind_now)). reflexivity. Defined.

(** [CheckStakeKernelHash_modifier_unavailable] on a ripe coin whose
    block is the tip. *)
Lemma CheckStakeKernelHash_modifier_unavailable_lonely :
  CheckStakeKernelHash easy_bits (Some lonely_from) disk_tx 161 stake_outpoint
    ripe_time_tx [] [] (world0 ripe_time_tx)
  = Done (false, [],
          ArithToUint256
            (mul (coin_day_weight (5000 * COIN) (tx_nTime disk_tx) ripe_time_tx)
                 (SetCompact easy_bits)))
         (world0 ripe_time_tx)
  /\ state (world0 ripe_time_tx) = state (world0 ripe_time_tx).
Proof.
  apply (CheckStakeKernelHash_modifier_unavailable easy_bits lonely_from disk_tx 161
           stake_outpoint ripe_time_tx [] [] {| nValue := 5000 * COIN |}
           (0, 10, 1000000) (world0 ripe_time_tx) (world0 ripe_time_tx)).
  - vm_compute. discriminate.
  - vm_compute. reflexivity.
  - vm_compute. discriminate.
  - vm_compute. discriminate.
  - reflexivity.
  - vm_compute. reflexivity.
Defined.

(** [CheckStakeKernelHash_verdict_from_outputs] on the ripe coin. *)
Lemma CheckStakeKernelHash_verdict_ripe_coin :
  exists hashProof targetProof,
    CheckStakeKernelHash easy_bits (Some ripe_from) disk_tx 161 stake_outpoint
      ripe_time_tx [] [] (world0 ripe_time_tx)
    = Done (UintToArith256 hashProof <=? UintToArith256 targetProof,
            hashProof, targetProof) (world0 ripe_time_tx).
Proof.
  apply (CheckStakeKernelHash_verdict_from_outputs easy_bits ripe_from disk_tx 161
           stake_outpoint ripe_time_tx [] [] {| nValue := 5000 * COIN |} 0xabcdef 40 1016900
           (world0 ripe_time_tx) (world0 ripe_time_tx)).
  - vm_compute. discriminate.
  - vm_compute. reflexivity.
  - vm_compute. discriminate.
  - vm_compute. discriminate.
  - reflexivity.
  - vm_compute. reflexivity.
Defined.

(** [CheckProofOfStake_kernel_reject_scores_twice] on a coinstake that
    spends a coin 50400 seconds after its block. *)
Lemma CheckProofOfStake_fresh_coin_scores_twice :
  exists msg1 msg2 w',
    CheckProofOfStake orphan_txdb (Some orphan_prev) orphan_block [] []
      (found_index fresh_from) orphan_view (world0 1950400)
    = Done (false, [], []) w'
    /\ w' = rejected msg2 (rejected msg1 (world0 1950400))
    /\ nDoS (state w') = nDoS (state (world0 1950400)) + 200
    /\ length (errlog w') = S (S (length (errlog (world0 1950400)))).
Proof.
  apply (CheckProofOfStake_kernel_reject_scores_twice orphan_txdb orphan_prev orphan_block
           [] [] (found_index fresh_from) orphan_view coinstake
           {| prevout := stake_outpoint |}
           {| nFile := 0; nPos := 1234; nTxOffset := 81 |}
           {| headerPrev := le_bytes 80 1234; txPrev0 := disk_tx |}
           {| coin_nHeight := 5; coin_out := {| nValue := 5000 * COIN |} |}
           (linear_chain 5) fresh_from (world0 1950400)).
  - reflexivity.
  - vm_compute. reflexivity.
  - reflexivity.
  - vm_compute. reflexivity.
  - vm_compute. reflexivity.
  - vm_compute. reflexivity.
  - vm_compute. reflexivity.
  - vm_compute. discriminate.
  - vm_compute. reflexivity.
  - right. vm_compute. reflexivity.
Defined.

(** [CheckProofOfStake_false_is_reject] on the same run. *)
Lemma CheckProofOfStake_fresh_coin_is_reject :
  let w' := rejected "CheckProofOfStake() : INFO: check kernel failed on coinstake"
              (rejected "CheckStakeKernelHash() : min age violation" (world0 1950400)) in
  invalid (state w') = true
  /\ nDoS (state (world0 1950400)) + 100 <= nDoS (state w').
Proof.
  intros w'.
  apply (CheckProofOfStake_false_is_reject orphan_txdb (Some orphan_prev) orphan_block
           [] [] (found_index fresh_from) orphan_view (world0 1950400) w' false [] []).
  vm_compute. reflexivity.
Defined.

(** [CheckProofOfStake_lookup_failures] on a view that does not hold
    the coin. *)
Lemma CheckProofOfStake_missing_coin_rejects :
  exists msg,
    CheckProofOfStake orphan_txdb (Some orphan_prev) orphan_block [] []
      orphan_index ∅ (world0 1950400)
    = Done (false, [], []) (rejected msg (world0 1950400)).
Proof.
  destruct (CheckProofOfStake_lookup_failures orphan_txdb (Some orphan_prev) orphan_block
              [] [] orphan_index ∅ coinstake (world0 1950400) eq_refl) as [_ Hin].
  destruct (Hin {| prevout := stake_outpoint |} eq_refl eq_refl) as [_ Hidx].
  destruct (Hidx {| nFile := 0; nPos := 1234; nTxOffset := 81 |} eq_refl)
    as (_ & _ & Hrec).
  destruct (Hrec {| headerPrev := le_bytes 80 1234; txPrev0 := disk_tx |} eq_refl)
    as [Hcoin _].
  apply Hcoin. reflexivity.
Defined.

(** [CheckProofOfStake_modifier_unavailable_rejects] on a ripe coin
    whose block is the tip. *)
Lemma CheckProofOfStake_lonely_block_rejects :
  exists msg,
    CheckProofOfStake orphan_txdb (Some orphan_prev) orphan_block [] []
      (found_index lonely_from) orphan_view (world0 1950400)
    = Done (false, [],
            ArithToUint256
              (mul (coin_day_weight (5000 * COIN) (tx_nTime disk_tx) (tx_nTime coinstake))
                   (SetCompact (nBits orphan_block))))
        (rejected msg (world0 1950400))
    /\ nDoS (state (rejected msg (world0 1950400))) = nDoS (state (world0 1950400)) + 100.
Proof.
  apply (CheckProofOfStake_modifier_unavailable_rejects orphan_txdb orphan_prev orphan_block
           [] [] (found_index lonely_from) orphan_view coinstake
           {| prevout := stake_outpoint |}
           {| nFile := 0; nPos := 1234; nTxOffset := 81 |}
           {| headerPrev := le_bytes 80 1234; txPrev0 := disk_tx |}
           {| coin_nHeight := 5; coin_out := {| nValue := 5000 * COIN |} |}
           (linear_chain 5) lonely_from {| nValue := 5000 * COIN |}
           (0, 10, 1000000) (world0 1950400) (world0 1950400)).
  - reflexivity.
  - vm_compute. reflexivity.
  - reflexivity.
  - vm_compute. reflexivity.
  - vm_compute. reflexivity.
  - vm_compute. reflexivity.
  - vm_compute. reflexivity.
  - vm_compute. discriminate.
  - vm_compute. reflexivity.
  - vm_compute. discriminate.
  - vm_compute. reflexivity.
  - vm_compute. discriminate.
  - vm_compute. discriminate.
  - reflexivity.
  - vm_compute. reflexivity.
Defined.

Lemma duel_indexed : Forall (indexed duel_index) [pow_item; pos_item].
Proof. repeat constructor; unfold indexed; apply (bool_decide_unpack _); vm_compute; exact I. Qed.

Lemma duel_unselected : Exists (unselected duel_index ∅) [pow_item; pos_item].
Proof. left. exists pow_candidate. split; vm_compute; reflexivity. Qed.

Lemma duel_within_stop : Forall (within_stop duel_index 6000) [pow_item; pos_item].
Proof.
  repeat constructor; intros q Hq; vm_compute in Hq; injection Hq as <-;
    vm_compute; discriminate.
Qed.

(** [SelectBlockFromCandidates_selects_unselected] on the round of two
    candidates. *)
Lemma SelectBlockFromCandidates_selects_in_duel :
  exists win,
    SelectBlockFromCandidates duel_index [pow_item; pos_item] ∅ 6000 0 (world0 0)
    = Done (true, Some win) (world0 0)
    /\ (∅ : gmap uint256 CBlockIndex) !! GetBlockHash win = None
    /\ exists item, item ∈ [pow_item; pos_item] /\ duel_index !! item.2 = Some win.
Proof.
  apply (SelectBlockFromCandidates_selects_unselected duel_index ∅ [pow_item; pos_item]
           6000 0 (world0 0)).
  - exact duel_indexed.
  - exact duel_unselected.
Defined.

(** [SelectBlockFromCandidates_minimum] on the round of two candidates. *)
Lemma SelectBlockFromCandidates_minimum_in_duel :
  exists win,
    SelectBlockFromCandidates duel_index [pow_item; pos_item] ∅ 6000 0 (world0 0)
    = Done (true, Some win) (world0 0)
    /\ forall item p,
         item ∈ [pow_item; pos_item] -> duel_index !! item.2 = Some p ->
         (∅ : gmap uint256 CBlockIndex) !! GetBlockHash p = None ->
         selection_hash 0 win <= selection_hash 0 p.
Proof.
  apply (SelectBlockFromCandidates_minimum duel_index ∅ [pow_item; pos_item]
           6000 0 (world0 0)).
  - exact duel_indexed.
  - exact duel_within_stop.
  - exact duel_unselected.
Defined.

(** [SelectBlockFromCandidates_missing_index] with a candidate of
    unknown hash between the two. *)
Lemma SelectBlockFromCandidates_unknown_candidate :
  exists sel,
    SelectBlockFromCandidates duel_index ([pow_item] ++ unknown_item :: [pos_item])
      ∅ 6000 0 (world0 0)
    = Done (false, sel)
        (logged "SelectBlockFromCandidates: failed to find block index for candidate block"
           (world0 0)).
Proof.
  apply (SelectBlockFromCandidates_missing_index duel_index ∅ [pow_item] [pos_item]
           unknown_item 6000 0 (world0 0)).
  - repeat constructor; unfold indexed; apply (bool_decide_unpack _); vm_compute; exact I.
  - repeat constructor; intros q Hq; vm_compute in Hq; injection Hq as <-;
      vm_compute; discriminate.
  - vm_compute. reflexivity.
Defined.

(** [SelectBlockFromCandidates_stops_at_late_candidate] with a stop
    between the two candidates. *)
Lemma SelectBlockFromCandidates_stops_before_pos :
  SelectBlockFromCandidates duel_index ([pow_item] ++ pos_item :: []) ∅ 5030 0 (world0 0)
  = SelectBlockFromCandidates duel_index [pow_item] ∅ 5030 0 (world0 0).
Proof.
  apply (SelectBlockFromCandidates_stops_at_late_candidate duel_index ∅ [pow_item] []
           pos_item pos_candidate 5030 0 (world0 0)).
  - vm_compute. reflexivity.
  - vm_compute. reflexivity.
  - left. exists pow_candidate. split; vm_compute; reflexivity.
Defined.

(** [SelectBlockFromCandidates_nothing_left] when both candidates have
    been selected. *)
Lemma SelectBlockFromCandidates_duel_exhausted :
  SelectBlockFromCandidates duel_index [pow_item; pos_item] duel_index 6000 0 (world0 0)
  = Done (false, None) (world0 0).
Proof.
  apply (SelectBlockFromCandidates_nothing_left duel_index duel_index [pow_item; pos_item]
           6000 0 (world0 0)).
  constructor; [|constructor; [|constructor]].
  - exists pow_candidate. split; [vm_compute; reflexivity|].
    apply (bool_decide_unpack _). vm_compute. exact I.
  - exists pos_candidate. split; [vm_compute; reflexivity|].
    apply (bool_decide_unpack _). vm_compute. exact I.
Defined.

(** [ComputeNextStakeModifier_generates] on the chain whose two
    candidates are eight minutes apart. *)
Lemma ComputeNextStakeModifier_generates_apart :
  exists nStakeModifierNew,
    ComputeNextStakeModifier apart_index (Some apart_newer) (world0 0)
    = Done (true, nStakeModifierNew, true) (world0 0)
    /\ 0 <= nStakeModifierNew < 2 ^ 64
    /\ ((forall p, 0 <= GetStakeEntropyBit p <= 1) ->
        nStakeModifierNew
        < 2 ^ Z.min 64 (Z.of_nat (length (collect_candidates
                                            (selection_interval_start apart_newer)
                                            apart_newer)))).
Proof.
  apply (ComputeNextStakeModifier_generates apart_index apart_newer genesis
           [apart_newer; tie_older] [] (world0 0)).
  - exact stable_sort_by_time_Permutation.
  - reflexivity.
  - repeat constructor.
  - reflexivity.
  - vm_compute. reflexivity.
  - apply (bool_decide_unpack _). vm_compute. exact I.
  - constructor; [|constructor; [|constructor]].
    + exists apart_newer. split; vm_compute; reflexivity.
    + exists tie_older. split; vm_compute; reflexivity.
Defined.

(** [ComputeNextStakeModifier_no_generation] on a chain without any
    generated modifier. *)
Lemma ComputeNextStakeModifier_bare_chain_fails :
  ComputeNextStakeModifier ∅ (Some bare_prev) (world0 0)
  = Done (false, 0, false)
      (logged "ComputeNextStakeModifier: unable to get last modifier"
         (logged "GetLastStakeModifier: no generation at genesis block" (world0 0))).
Proof.
  apply (ComputeNextStakeModifier_no_generation ∅ bare_prev (world0 0)).
  repeat constructor.
Defined.
